(** * Restaurant Wall: retrieval fallback chain, submission and the
      filter/sort pipeline of [src/App.tsx]

    The development embeds the component [App] of [src/App.tsx] and the
    record types of [src/types.ts]:

    - JavaScript strings are sequences of UTF-16 code units, so that
      [length] is the [.length] the price comparator relies on;
    - [filteredAndSortedRestaurants] is a pure function on lists;
    - the two asynchronous functions [fetchRestaurants] and
      [handleAddRestaurant] are programs over a small effect signature
      (state setters, local storage, console, network), with [try]/[catch]
      and [try]/[finally] as combinators; an [await fetch(..)] is the only
      point where such a program is suspended;
    - the effects of the component ([useEffect]) and the delivery of network
      responses are the events of a session. *)

From Stdlib Require Import ZArith QArith Ascii String Sorted Permutation.
From stdpp Require Import gmap list.

Local Open Scope Z_scope.

(** ** JavaScript strings *)

(** A JavaScript string is a finite sequence of 16-bit code units. *)
Definition JsString : Type := list N.

(** An ASCII literal of the source, as code units. *)
Fixpoint js (s : string) : JsString :=
  match s with
  | EmptyString => []
  | String a s' => N_of_ascii a :: js s'
  end.

(** The euro sign U+20AC is one code unit. *)
Definition euro : N := 8364%N.

(** [s === t] on strings. *)
Definition str_eqb (s t : JsString) : bool := bool_decide (s = t).

(** [s.startsWith(t)]. *)
Fixpoint startsWith (s t : JsString) {struct t} : bool :=
  match t, s with
  | [], _ => true
  | _ :: _, [] => false
  | c :: t', d :: s' => N.eqb c d && startsWith s' t'
  end.

(** [s.includes(t)]: [t] occurs in [s] at some position. *)
Fixpoint includes (s t : JsString) : bool :=
  startsWith s t ||
  match s with
  | [] => false
  | _ :: s' => includes s' t
  end.

(** A string is truthy exactly when it is not empty; [null] is falsy. *)
Definition truthy (v : option JsString) : bool :=
  match v with
  | Some (_ :: _) => true
  | _ => false
  end.

(** [a || b] on an optional string and a default. *)
Definition or_default (v : option JsString) (d : JsString) : JsString :=
  match v with
  | Some (c :: s) => c :: s
  | _ => d
  end.

(** Lower case of one code unit of the range A-Z; other units are kept. *)
Definition ascii_lower (c : N) : N :=
  if (N.leb 65 c && N.leb c 90)%bool then (c + 32)%N else c.

Definition is_ascii (s : JsString) : Prop := Forall (fun c => (c < 128)%N) s.

(** ** Data model ([src/types.ts]) *)

Record Location := {
  lat : Q;
  lng : Q;
  address : JsString
}.

Record Restaurant := {
  id : JsString;
  name : JsString;
  cuisine : JsString;
  description : JsString;
  priceRange : JsString;
  rating : Z;
  recommendedBy : JsString;
  timestamp : Z;
  location : Location
}.

(** [Omit<Restaurant, 'id' | 'timestamp'>] *)
Record Draft := {
  d_name : JsString;
  d_cuisine : JsString;
  d_description : JsString;
  d_priceRange : JsString;
  d_rating : Z;
  d_recommendedBy : JsString;
  d_location : Location
}.

Definition Collection : Type := list Restaurant.

(** The four literals of the type of [priceRange]. *)
Definition price_symbols : list JsString :=
  [ [euro]; [euro; euro]; [euro; euro; euro]; [euro; euro; euro; euro] ].

Definition has_tier_symbol (r : Restaurant) : Prop :=
  In (priceRange r) price_symbols.

(** The tier that the price comparator works with: the length of the
    price symbol string. *)
Definition tier (r : Restaurant) : Z := Z.of_nat (length (priceRange r)).

(** The tier order as the specification words it: the rank 1 to 4 of the
    four symbols (0 for any other string). *)
Definition symbol_rank (p : JsString) : Z :=
  if decide (p = [euro]) then 1
  else if decide (p = [euro; euro]) then 2
  else if decide (p = [euro; euro; euro]) then 3
  else if decide (p = [euro; euro; euro; euro]) then 4
  else 0.

(** [t] occurs in [s], as the specification words the search. *)
Definition substring (t s : JsString) : Prop :=
  exists before after, s = before ++ t ++ after.

(** ** [Array.prototype.sort] *)

(** The comparators of the source are differences of numeric keys, hence
    consistent; for a consistent comparator the result of [sort] is the
    stable sorted arrangement, which is what insertion from the right
    computes: an element goes in front of the first element it does not
    compare greater than. *)
Fixpoint sort_insert {A} (cmp : A -> A -> Z) (x : A) (l : list A) : list A :=
  match l with
  | [] => [x]
  | y :: l' => if 0 <? cmp x y then y :: sort_insert cmp x l' else x :: y :: l'
  end.

Definition Array_sort {A} (cmp : A -> A -> Z) (l : list A) : list A :=
  foldr (sort_insert cmp) [] l.

(** ** The filter/sort pipeline *)

Section Pipeline.

(** [String.prototype.toLowerCase] is a built-in of the platform. *)
Variable toLowerCase : JsString -> JsString.

Definition matchesSearch (searchTerm : JsString) (restaurant : Restaurant) : bool :=
  includes (toLowerCase (name restaurant)) (toLowerCase searchTerm) ||
  includes (toLowerCase (description restaurant)) (toLowerCase searchTerm).

Definition matchesCuisine (selectedCuisine : JsString) (restaurant : Restaurant) : bool :=
  str_eqb selectedCuisine (js "All") || str_eqb (cuisine restaurant) selectedCuisine.

Definition matchesPrice (priceFilter : JsString) (restaurant : Restaurant) : bool :=
  str_eqb priceFilter (js "all") || str_eqb (priceRange restaurant) priceFilter.

(** The callback of [.filter]. *)
Definition keep (searchTerm selectedCuisine priceFilter : JsString)
    (restaurant : Restaurant) : bool :=
  matchesSearch searchTerm restaurant &&
  matchesCuisine selectedCuisine restaurant &&
  matchesPrice priceFilter restaurant.

(** The callback of [.sort]: the [switch] on [sortBy]. *)
Definition compareBy (sortBy : JsString) (a b : Restaurant) : Z :=
  if str_eqb sortBy (js "newest") then timestamp b - timestamp a
  else if str_eqb sortBy (js "oldest") then timestamp a - timestamp b
  else if str_eqb sortBy (js "rating") then rating b - rating a
  else if str_eqb sortBy (js "price-asc") then
    Z.of_nat (length (priceRange a)) - Z.of_nat (length (priceRange b))
  else if str_eqb sortBy (js "price-desc") then
    Z.of_nat (length (priceRange b)) - Z.of_nat (length (priceRange a))
  else 0.

Definition filteredAndSortedRestaurants (restaurants : Collection)
    (searchTerm selectedCuisine priceFilter sortBy : JsString) : list Restaurant :=
  Array_sort (compareBy sortBy)
    (List.filter (keep searchTerm selectedCuisine priceFilter) restaurants).

(** The pipeline with the cuisine and the price predicates removed. *)
Definition searchedAndSortedRestaurants (restaurants : Collection)
    (searchTerm sortBy : JsString) : list Restaurant :=
  Array_sort (compareBy sortBy)
    (List.filter (matchesSearch searchTerm) restaurants).

End Pipeline.

(** The numeric key that the comparator of a sort key subtracts, so that
    sorting is ascending in it: [compareBy sortBy a b] is
    [sort_key sortBy a - sort_key sortBy b] (lemma [compareBy_sort_key]). *)
Definition sort_key (sortBy : JsString) (r : Restaurant) : Z :=
  if str_eqb sortBy (js "newest") then - timestamp r
  else if str_eqb sortBy (js "oldest") then timestamp r
  else if str_eqb sortBy (js "rating") then - rating r
  else if str_eqb sortBy (js "price-asc") then Z.of_nat (length (priceRange r))
  else if str_eqb sortBy (js "price-desc") then - Z.of_nat (length (priceRange r))
  else 0.

(** The five values of [sortBy] that the [switch] has a case for. *)
Definition sort_keys : list JsString :=
  [js "newest"; js "oldest"; js "rating"; js "price-asc"; js "price-desc"].


(** ** Effects of the component *)

(** What a [throw] carries: an [Error] built by the source, the [TypeError]
    of a [fetch] that the network fails, the [SyntaxError] of
    [response.json()] and [JSON.parse] on a malformed text. *)
Inductive Exn :=
| JsError (message : JsString)
| TypeError
| SyntaxError.

(** A request: [fetch(url)] and [fetch(url, {method: 'POST', ..., body})],
    the body being the JSON text of a record. *)
Inductive Request :=
| GET (url : JsString)
| POST (url : JsString) (body : Restaurant).

(** A response: its [ok] flag and what [response.json()] resolves to,
    [None] when the body is not JSON. *)
Record Response := {
  ok : bool;
  json_body : option Collection
}.

(** How the promise of a [fetch] settles. *)
Inductive FetchResult :=
| Rejected
| Resolved (response : Response).

Inductive Eff : Type -> Type :=
| SetRestaurants (data : Collection) : Eff unit
| SetError (e : option JsString) : Eff unit
| SetIsLoading (b : bool) : Eff unit
| Console (label : JsString) (e : Exn) : Eff unit
| GetItem (key : JsString) : Eff (option JsString)
| SetItem (key value : JsString) : Eff unit
| RandomUUID : Eff JsString
| DateNow : Eff Z
| Fetch (req : Request) : Eff FetchResult.

(** The body of an [async] function: it returns, throws, or performs an
    effect and goes on with its answer. *)
Inductive Prog (A : Type) : Type :=
| Ret (a : A)
| Throw (e : Exn)
| Vis {X : Type} (e : Eff X) (k : X -> Prog A).

Arguments Ret {A} a.
Arguments Throw {A} e.
Arguments Vis {A X} e k.

Fixpoint bind {A B} (p : Prog A) (f : A -> Prog B) : Prog B :=
  match p with
  | Ret a => f a
  | Throw e => Throw e
  | Vis e k => Vis e (fun x => bind (k x) f)
  end.

#[global] Instance Prog_ret : MRet Prog := @Ret.
#[global] Instance Prog_bind : MBind Prog := fun A B f p => bind p f.

(** [try { p } catch (e) { h e }] *)
Fixpoint try_catch {A} (p : Prog A) (h : Exn -> Prog A) : Prog A :=
  match p with
  | Ret a => Ret a
  | Throw e => h e
  | Vis e k => Vis e (fun x => try_catch (k x) h)
  end.

(** [try { p } finally { f }] *)
Fixpoint try_finally {A} (p : Prog A) (f : Prog unit) : Prog A :=
  match p with
  | Ret a => bind f (fun _ => Ret a)
  | Throw e => bind f (fun _ => Throw e)
  | Vis e k => Vis e (fun x => try_finally (k x) f)
  end.

Definition perform {X} (e : Eff X) : Prog X := Vis e Ret.

Definition setRestaurants (data : Collection) : Prog unit := perform (SetRestaurants data).
Definition setError (e : option JsString) : Prog unit := perform (SetError e).
Definition setIsLoading (b : bool) : Prog unit := perform (SetIsLoading b).
Definition console_log (label : JsString) (e : Exn) : Prog unit := perform (Console label e).
Definition console_error (label : JsString) (e : Exn) : Prog unit := perform (Console label e).
Definition localStorage_getItem (key : JsString) : Prog (option JsString) := perform (GetItem key).
Definition localStorage_setItem (key value : JsString) : Prog unit := perform (SetItem key value).
Definition crypto_randomUUID : Prog JsString := perform RandomUUID.
Definition Date_now : Prog Z := perform DateNow.

(** [await fetch(req)]: a rejected promise is thrown at the [await]. *)
Definition fetch (req : Request) : Prog Response :=
  Vis (Fetch req) (fun r => match r with
                            | Resolved response => Ret response
                            | Rejected => Throw TypeError
                            end).

(** [await response.json()]. Nothing is read or written between the
    [await] of the response and this one. *)
Definition response_json (response : Response) : Prog Collection :=
  match json_body response with
  | Some data => Ret data
  | None => Throw SyntaxError
  end.

(** [if (c) throw new Error(msg)] *)
Definition throw_if (c : bool) (msg : JsString) : Prog unit :=
  if c then Throw (JsError msg) else Ret tt.


(** ** The browser side: state of the component, local storage, history *)

Inductive Event :=
| EvFetch (req : Request)
| EvGetItem (key : JsString) (result : option JsString)
| EvSetItem (key value : JsString)
| EvConsole (label : JsString) (e : Exn).

(** The state slots of [App] that the two functions write, the local
    storage of the origin, what [crypto.randomUUID()] and [Date.now()]
    answer, whether [restaurants] was set since the last commit, and the
    history of the outside effects, latest first. *)
Record World := {
  restaurants : Collection;
  error : option JsString;
  isLoading : bool;
  localStorage : gmap JsString JsString;
  entropy : JsString;
  clock : Z;
  stale : bool;
  history : list Event
}.

Definition with_restaurants (data : Collection) (w : World) : World :=
  {| restaurants := data; error := error w; isLoading := isLoading w;
     localStorage := localStorage w; entropy := entropy w; clock := clock w;
     stale := true; history := history w |}.

Definition with_error (e : option JsString) (w : World) : World :=
  {| restaurants := restaurants w; error := e; isLoading := isLoading w;
     localStorage := localStorage w; entropy := entropy w; clock := clock w;
     stale := stale w; history := history w |}.

Definition with_isLoading (b : bool) (w : World) : World :=
  {| restaurants := restaurants w; error := error w; isLoading := b;
     localStorage := localStorage w; entropy := entropy w; clock := clock w;
     stale := stale w; history := history w |}.

Definition with_localStorage (m : gmap JsString JsString) (w : World) : World :=
  {| restaurants := restaurants w; error := error w; isLoading := isLoading w;
     localStorage := m; entropy := entropy w; clock := clock w;
     stale := stale w; history := history w |}.

Definition with_stale (b : bool) (w : World) : World :=
  {| restaurants := restaurants w; error := error w; isLoading := isLoading w;
     localStorage := localStorage w; entropy := entropy w; clock := clock w;
     stale := b; history := history w |}.

Definition with_source (uuid : JsString) (now : Z) (w : World) : World :=
  {| restaurants := restaurants w; error := error w; isLoading := isLoading w;
     localStorage := localStorage w; entropy := uuid; clock := now;
     stale := stale w; history := history w |}.

Definition record (ev : Event) (w : World) : World :=
  {| restaurants := restaurants w; error := error w; isLoading := isLoading w;
     localStorage := localStorage w; entropy := entropy w; clock := clock w;
     stale := stale w; history := ev :: history w |}.

(** [localStorage.getItem(key)] *)
Definition stored (key : JsString) (w : World) : option JsString :=
  localStorage w !! key.

(** [localStorage.setItem(key, value)] *)
Definition store (key value : JsString) (w : World) : World :=
  with_localStorage (<[key := value]> (localStorage w)) w.

(** One effect, run to its answer; a [fetch] has none yet: it gives the
    request and how its result will be passed on. *)
Definition handle {X} (e : Eff X) (w : World)
    : (X * World) + (Request * (FetchResult -> X)) :=
  match e in Eff X return (X * World) + (Request * (FetchResult -> X)) with
  | SetRestaurants data => inl (tt, with_restaurants data w)
  | SetError e => inl (tt, with_error e w)
  | SetIsLoading b => inl (tt, with_isLoading b w)
  | Console label e => inl (tt, record (EvConsole label e) w)
  | GetItem key => inl (stored key w, record (EvGetItem key (stored key w)) w)
  | SetItem key value =>
      inl (tt, record (EvSetItem key value) (store key value w))
  | RandomUUID => inl (entropy w, w)
  | DateNow => inl (clock w, w)
  | Fetch req => inr (req, fun r => r)
  end.

(** How far a call has got. *)
Inductive Status (A : Type) : Type :=
| Returned (a : A)
| Threw (e : Exn)
| Awaiting (req : Request) (k : FetchResult -> Prog A).

Arguments Returned {A} a.
Arguments Threw {A} e.
Arguments Awaiting {A} req k.

(** A program runs without interruption up to its next [await fetch]. *)
Fixpoint run_sync {A} (p : Prog A) (w : World) : World * Status A :=
  match p with
  | Ret a => (w, Returned a)
  | Throw e => (w, Threw e)
  | Vis e k =>
      match handle e w with
      | inl (x, w') => run_sync (k x) w'
      | inr (req, pass) => (record (EvFetch req) w, Awaiting req (fun r => k (pass r)))
      end
  end.

(** A call run with the results of its successive fetches, each passed
    on when the call comes to await it; the call is left awaiting when they
    are used up, and leaves unused those it never asks for. *)
Fixpoint exec {A} (p : Prog A) (results : list FetchResult) (w : World)
    {struct p} : World * Status A :=
  match p with
  | Ret a => (w, Returned a)
  | Throw e => (w, Threw e)
  | Vis e k =>
      match handle e w with
      | inl (x, w') => exec (k x) results w'
      | inr (req, pass) =>
          match results with
          | r :: results' => exec (k (pass r)) results' (record (EvFetch req) w)
          | [] => (record (EvFetch req) w, Awaiting req (fun r => k (pass r)))
          end
      end
  end.

(** What a GET attempt of [fetchRestaurants] obtains: the data when the
    promise resolves with [ok] and a JSON body, otherwise the attempt
    fails. *)
Definition obtained (r : FetchResult) : option Collection :=
  match r with
  | Resolved response => if ok response then json_body response else None
  | Rejected => None
  end.

(** A POST succeeds when the promise resolves with [ok]. *)
Definition accepted (r : FetchResult) : bool :=
  match r with
  | Resolved response => ok response
  | Rejected => false
  end.

(** The events of the history that consult the cache. *)
Definition is_read (ev : Event) : bool :=
  match ev with
  | EvGetItem _ _ => true
  | _ => false
  end.

(** What a call has thrown, and whether it is still awaiting a fetch. *)
Definition thrown {A} (st : Status A) : option Exn :=
  match st with
  | Threw e => Some e
  | _ => None
  end.

Definition in_flight {A} (st : Status A) : bool :=
  match st with
  | Awaiting _ _ => true
  | _ => false
  end.

(** What a GET attempt that obtains nothing throws in its [try]: the
    [TypeError] of the rejected promise, the [Error] built for a response
    that is not [ok], the [SyntaxError] of a body that is not JSON. *)
Definition failure (message : JsString) (r : FetchResult) : Exn :=
  match r with
  | Rejected => TypeError
  | Resolved response => if ok response then SyntaxError else JsError message
  end.

(** A program all of whose effects satisfy [P]. *)
Inductive obeys {A} (P : forall X, Eff X -> Prop) : Prog A -> Prop :=
| obeys_Ret (a : A) : obeys P (Ret a)
| obeys_Throw (e : Exn) : obeys P (Throw e)
| obeys_Vis {X} (e : Eff X) (k : X -> Prog A) :
    P X e -> (forall x, obeys P (k x)) -> obeys P (Vis e k).

(** The effects other than [localStorage.setItem]. *)
Definition no_write (X : Type) (e : Eff X) : Prop :=
  match e with
  | SetItem _ _ => False
  | _ => True
  end.

(** ** Sample data *)

Definition tofu_house : Restaurant :=
  {| id := js "7f9c"; name := js "Tofu House"; cuisine := js "Japanese";
     description := js "Silken tofu, grilled"; priceRange := [euro; euro];
     rating := 5; recommendedBy := js "Mina"; timestamp := 1700000000000;
     location := {| lat := 0; lng := 0; address := js "1 Soy Lane" |} |}.

Definition green_bowl : Restaurant :=
  {| id := js "2a41"; name := js "Green Bowl"; cuisine := js "Thai";
     description := js "Curries and TOFU satay"; priceRange := [euro];
     rating := 4; recommendedBy := js "Arun"; timestamp := 1700000500000;
     location := {| lat := 0; lng := 0; address := js "8 Basil Road" |} |}.

Definition chez_vert : Restaurant :=
  {| id := js "c3d0"; name := js "Chez Vert"; cuisine := js "French";
     description := js "Tasting menu"; priceRange := [euro; euro; euro; euro];
     rating := 5; recommendedBy := js "Luce"; timestamp := 1699999000000;
     location := {| lat := 0; lng := 0; address := js "3 Rue Verte" |} |}.

Definition tofu_draft : Draft :=
  {| d_name := js "Tofu House"; d_cuisine := js "Japanese";
     d_description := js "Silken tofu, grilled"; d_priceRange := [euro; euro];
     d_rating := 5; d_recommendedBy := js "Mina";
     d_location := {| lat := 0; lng := 0; address := js "1 Soy Lane" |} |}.

(** A lower-casing that is right on ASCII text. *)
Definition lower_ascii (s : JsString) : JsString := map ascii_lower s.

(** A parser and a printer of two texts, enough to run the examples. *)
Definition parse_sample (text : JsString) : option Collection :=
  if decide (text = js "[]") then Some []
  else if decide (text = js "[tofu]") then Some [tofu_house]
  else None.

Definition stringify_sample (c : Collection) : JsString :=
  match c with
  | [] => js "[]"
  | _ => js "[tofu]"
  end.

Definition server_down : FetchResult :=
  Resolved {| ok := false; json_body := None |}.

Definition created : FetchResult :=
  Resolved {| ok := true; json_body := None |}.

(** ** The component *)

Section App.

(** [import.meta.env.VITE_API_URL], and the built-ins [JSON.parse]
    ([None]: it throws) and [JSON.stringify], at the type the state
    [restaurants] is declared with. *)
Variable VITE_API_URL : option JsString.
Variable JSON_parse : JsString -> option Collection.
Variable JSON_stringify : Collection -> JsString.

Definition API_URL : JsString :=
  or_default VITE_API_URL (js "http://localhost:3000/api").

Definition parse (text : JsString) : Prog Collection :=
  match JSON_parse text with
  | Some data => Ret data
  | None => Throw SyntaxError
  end.

Definition load_failure : JsString :=
  js "Failed to load restaurants. Please try again later.".

Definition add_failure : JsString :=
  js "Failed to add restaurant. Please try again.".

Definition storage_key : JsString := js "restaurants".

(** The value of the inner [try] tells whether the function has
    executed its [return]. *)
Definition fetchRestaurants : Prog unit :=
  try_finally
    (try_catch
       (setIsLoading true;;
        returned ← try_catch
          (response ← fetch (GET (API_URL ++ js "/restaurants"));
           throw_if (negb (ok response)) (js "Primary API failed");;
           data ← response_json response;
           setRestaurants data;;
           setError None;;
           Ret true)
          (fun primaryError =>
             console_log (js "Primary API error:") primaryError;;
             Ret false);
        if returned : bool then Ret tt else
        try_catch
          (response ← fetch (GET (js "http://localhost:3000/api/restaurants"));
           throw_if (negb (ok response)) (js "Fallback API failed");;
           data ← response_json response;
           setRestaurants data;;
           setError None)
          (fun fallbackError =>
             console_log (js "Fallback API error:") fallbackError;;
             Throw (JsError (js "All API endpoints failed"))))
       (fun err =>
          setError (Some load_failure);;
          savedData ← localStorage_getItem storage_key;
          match savedData with
          | Some (c :: text) =>
              data ← parse (c :: text);
              setRestaurants data;;
              setError None
          | _ => Ret tt
          end))
    (setIsLoading false).

Definition complete (newRestaurant : Draft) (uuid : JsString) (now : Z) : Restaurant :=
  {| id := uuid;
     name := d_name newRestaurant;
     cuisine := d_cuisine newRestaurant;
     description := d_description newRestaurant;
     priceRange := d_priceRange newRestaurant;
     rating := d_rating newRestaurant;
     recommendedBy := d_recommendedBy newRestaurant;
     timestamp := now;
     location := d_location newRestaurant |}.

Definition handleAddRestaurant (newRestaurant : Draft) : Prog unit :=
  try_catch
    (uuid ← crypto_randomUUID;
     now ← Date_now;
     let restaurantData := complete newRestaurant uuid now in
     response ← fetch (POST (API_URL ++ js "/restaurants") restaurantData);
     throw_if (negb (ok response)) (js "Failed to add restaurant");;
     fetchRestaurants;;
     setError None)
    (fun err =>
       setError (Some add_failure);;
       console_error (js "Error adding restaurant:") err).

(** The [catch] clause of [handleAddRestaurant]. *)
Definition report (err : Exn) : Prog unit :=
  setError (Some add_failure);;
  console_error (js "Error adding restaurant:") err.

(** The world once [handleAddRestaurant] has sent its POST. *)
Definition posted (newRestaurant : Draft) (w : World) : World :=
  record (EvFetch (POST (API_URL ++ js "/restaurants")
                        (complete newRestaurant (entropy w) (clock w)))) w.

(** The effect with dependency [[restaurants]], for the collection of
    the render that scheduled it. *)
Definition persist (restaurants : Collection) : Prog unit :=
  localStorage_setItem storage_key (JSON_stringify restaurants).

(** *** A session of the page

    The calls in flight are suspended at a [fetch]; each waits for its
    result with the rest of its body. *)
Record Session := {
  world : World;
  pending : list (Request * (FetchResult -> Prog unit))
}.

(** A call runs at once up to its first [await]; nobody awaits the
    promise of a call made by an effect or by the form, so that what it
    returns or throws is dropped. *)
Definition call (p : Prog unit) (s : Session) : Session :=
  match run_sync p (world s) with
  | (w, Awaiting req k) => {| world := w; pending := pending s ++ [(req, k)] |}
  | (w, _) => {| world := w; pending := pending s |}
  end.

(** The initial values of the [useState] slots, over the local storage
    an earlier session has left. *)
Definition initial (store : gmap JsString JsString) : World :=
  {| restaurants := []; error := None; isLoading := true;
     localStorage := store; entropy := []; clock := 0;
     stale := false; history := [] |}.

(** After the first render the effects run in the order of their
    declaration, one after the other and without interruption: the one
    that calls [fetchRestaurants], which stops at its first [await], then
    the one that persists the rendered collection. *)
Definition mount (store : gmap JsString JsString) : Session :=
  let s0 := {| world := initial store; pending := [] |} in
  let s1 := call fetchRestaurants s0 in
  call (persist (restaurants (world s0))) s1.

(** What happens next: the fetch of a suspended call settles; React
    commits a render and runs the effect whose dependency changed; the
    form calls [onAdd]. *)
Inductive Input :=
| Respond (i : nat) (r : FetchResult)
| Commit
| Submit (newRestaurant : Draft) (uuid : JsString) (now : Z).

Definition step (s : Session) (input : Input) : Session :=
  match input with
  | Respond i r =>
      match pending s !! i with
      | Some (_, k) => call (k r) {| world := world s; pending := delete i (pending s) |}
      | None => s
      end
  | Commit =>
      if stale (world s)
      then call (persist (restaurants (world s)))
             {| world := with_stale false (world s); pending := pending s |}
      else s
  | Submit newRestaurant uuid now =>
      call (handleAddRestaurant newRestaurant)
        {| world := with_source uuid now (world s); pending := pending s |}
  end.

Definition run (inputs : list Input) (s : Session) : Session :=
  foldl step s inputs.

(** Every read of the cache in a history finds a text that a write of
    the same history has put there before. *)
Definition reads_own_writes (h : list Event) : Prop :=
  forall later earlier v,
    h = later ++ EvGetItem storage_key v :: earlier ->
    exists text, v = Some text /\ In (EvSetItem storage_key text) earlier.

(** The cache holds a text that a write of the history has put there. *)
Definition settled (w : World) : Prop :=
  exists text,
    stored storage_key w = Some text /\
    In (EvSetItem storage_key text) (history w).

(** What every world of a session satisfies once the page is mounted. *)
Definition cache_inv (w : World) : Prop :=
  settled w /\ reads_own_writes (history w).

(** An effect that touches local storage under the key of the cache
    only, and a program of such effects. *)
Definition tame_eff {X} (e : Eff X) : Prop :=
  match e with
  | GetItem key => key = storage_key
  | SetItem key _ => key = storage_key
  | _ => True
  end.

Inductive tame {A} : Prog A -> Prop :=
| tame_Ret (a : A) : tame (Ret a)
| tame_Throw (e : Exn) : tame (Throw e)
| tame_Vis {X} (e : Eff X) (k : X -> Prog A) :
    tame_eff e -> (forall x, tame (k x)) -> tame (Vis e k).

(** Two worlds that differ at most in what local storage holds under
    other keys, and two sessions in such worlds with the same calls in
    flight. *)
Definition agree (w1 w2 : World) : Prop :=
  restaurants w1 = restaurants w2 /\
  error w1 = error w2 /\
  isLoading w1 = isLoading w2 /\
  entropy w1 = entropy w2 /\
  clock w1 = clock w2 /\
  stale w1 = stale w2 /\
  history w1 = history w2 /\
  stored storage_key w1 = stored storage_key w2.

Definition alike (s1 s2 : Session) : Prop :=
  pending s1 = pending s2 /\
  Forall (fun c => forall r, tame (c.2 r)) (pending s1) /\
  agree (world s1) (world s2).

(** The world in which a refresh whose two fetches have failed comes to
    look at what it has read from the cache: both requests and both console
    lines recorded, the failure message set, the cache read. *)
Definition offline_world (primary fallback : FetchResult) (w : World) : World :=
  record (EvGetItem storage_key (stored storage_key w))
    (with_error (Some load_failure)
       (record (EvConsole (js "Fallback API error:")
                  (failure (js "Fallback API failed") fallback))
          (record (EvFetch (GET (js "http://localhost:3000/api/restaurants")))
             (record (EvConsole (js "Primary API error:")
                        (failure (js "Primary API failed") primary))
                (record (EvFetch (GET (API_URL ++ js "/restaurants")))
                   (with_isLoading true w)))))).

(** The cache holds the text of the collection in memory, unless the
    collection was set since the last commit. *)
Definition synced (w : World) : Prop :=
  stale w = false ->
  stored storage_key w = Some (JSON_stringify (restaurants w)).

(** A session whose cache is synced and whose calls in flight will not
    write to local storage. *)
Definition steady (s : Session) : Prop :=
  synced (world s) /\
  Forall (fun c => forall r, obeys no_write (c.2 r)) (pending s).

(** *** Retrieval *)

(** [exec] resumes a call at each [await] with the next result. *)
Lemma exec_eq {A} (p : Prog A) (results : list FetchResult) (w : World) :
  exec p results w =
    match run_sync p w with
    | (w', Awaiting req k) =>
        match results with
        | r :: results' => exec (k r) results' w'
        | [] => (w', Awaiting req k)
        end
    | done => done
    end.
Proof.
  revert w. induction p as [a|e|X e k IH]; intros w; try reflexivity.
  cbn. destruct (handle e w) as [[x w']|[req pass]].
  - apply IH.
  - destruct results; reflexivity.
Qed.

(** Normal forms, with the strings and the accesses to local storage
    left as they are written. *)
Ltac crunch :=
  lazy -[stored store js storage_key load_failure add_failure API_URL app];
  unfold stored in *; cbn [localStorage] in *.

Ltac case_result r :=
  let ok := fresh "ok" in
  let body := fresh "body" in
  destruct r as [|[ok body]]; [| destruct ok; [destruct body |]].

(** C1. When the primary fetch fails, the fallback fetch fails and local
    storage holds nothing under the key (no item, or the empty text, which
    is as falsy as [null]), a refresh returns with the collection it started
    from and with the error slot set to
    "Failed to load restaurants. Please try again later.". *)
Theorem refresh_all_sources_fail (w : World) (primary fallback : FetchResult) :
  obtained primary = None ->
  obtained fallback = None ->
  truthy (stored storage_key w) = false ->
  exists w',
    exec fetchRestaurants [primary; fallback] w = (w', Returned tt) /\
    restaurants w' = restaurants w /\
    error w' = Some (js "Failed to load restaurants. Please try again later.").
Proof.
  intros Hp Hf Hs. destruct w as [rs err ld m ent clk st hist].
  case_result primary; try discriminate Hp;
    (case_result fallback; try discriminate Hf);
    crunch; destruct (m !! storage_key) as [[|c text]|]; try discriminate Hs;
    eexists; split; try reflexivity; split; reflexivity.
Qed.

(** C2. When both fetches fail and local storage holds a cached
    collection under the key, a refresh returns with the cached
    collection in memory and with the error slot cleared. *)
Theorem refresh_recovers_cache (w : World) (primary fallback : FetchResult)
    (text : JsString) (cached : Collection) :
  obtained primary = None ->
  obtained fallback = None ->
  stored storage_key w = Some text ->
  text <> [] ->
  JSON_parse text = Some cached ->
  exists w',
    exec fetchRestaurants [primary; fallback] w = (w', Returned tt) /\
    restaurants w' = cached /\
    error w' = None.
Proof.
  intros Hp Hf Hs Hne Hjs. destruct w as [rs err ld m ent clk st hist].
  destruct text as [|c text]; [congruence |].
  case_result primary; try discriminate Hp;
    (case_result fallback; try discriminate Hf);
    crunch; rewrite Hs, Hjs;
    eexists; split; try reflexivity; split; reflexivity.
Qed.

(** C3. When the primary fetch fails and the fetch from the hardcoded
    localhost address succeeds with a collection, a refresh returns with
    that collection in memory and with the error slot cleared; the second
    request went to the hardcoded address and local storage was not read. *)
Theorem refresh_fallback_succeeds (w : World) (primary fallback : FetchResult)
    (data : Collection) :
  obtained primary = None ->
  obtained fallback = Some data ->
  exists w' e,
    exec fetchRestaurants [primary; fallback] w = (w', Returned tt) /\
    restaurants w' = data /\
    error w' = None /\
    history w' =
      [ EvFetch (GET (js "http://localhost:3000/api/restaurants"));
        EvConsole (js "Primary API error:") e;
        EvFetch (GET (API_URL ++ js "/restaurants")) ] ++ history w /\
    List.filter is_read (history w') = List.filter is_read (history w).
Proof.
  intros Hp Hf.
  case_result primary; try discriminate Hp;
    (case_result fallback; try discriminate Hf);
    injection Hf as ->;
    eexists; eexists; (split; [reflexivity |]); repeat split; reflexivity.
Qed.

(** *** Submission *)

(** C8. When the POST fails, by a network error or by a response that
    is not [ok], the submission returns with the error slot set to
    "Failed to add restaurant. Please try again." and with the collection
    and local storage as they were; the POST is the only request made. *)
Theorem submit_rejected (w : World) (newRestaurant : Draft) (post : FetchResult)
    (later : list FetchResult) :
  accepted post = false ->
  exists w' e,
    exec (handleAddRestaurant newRestaurant) (post :: later) w = (w', Returned tt) /\
    error w' = Some (js "Failed to add restaurant. Please try again.") /\
    restaurants w' = restaurants w /\
    localStorage w' = localStorage w /\
    history w' =
      EvConsole (js "Error adding restaurant:") e :: history (posted newRestaurant w).
Proof.
  intros Hpost.
  destruct post as [|[[] body]]; try discriminate Hpost;
    eexists; eexists; (split; [reflexivity |]); repeat split; reflexivity.
Qed.

(** A guarded sequence [try { await p; f } catch (e) { h e }] whose
    rest [f] and handler [h] make no request: it ends as [p] ends, then
    as the rest or the handler does. *)
Lemma exec_guarded {A B} (p : Prog A) (f : A -> Prog B) (h : Exn -> Prog B)
    (results : list FetchResult) (w : World) :
  (forall a rs w0, exec (try_catch (f a) h) rs w0 = exec (try_catch (f a) h) [] w0) ->
  (forall e rs w0, exec (h e) rs w0 = exec (h e) [] w0) ->
  exec (try_catch (bind p f) h) results w =
    match exec p results w with
    | (w', Returned a) => exec (try_catch (f a) h) [] w'
    | (w', Threw e) => exec (h e) [] w'
    | (w', Awaiting req k) =>
        (w', Awaiting req (fun r => try_catch (bind (k r) f) h))
    end.
Proof.
  intros Hf Hh. revert results w.
  induction p as [a|e|X e k IH]; intros results w; cbn.
  - apply Hf.
  - apply Hh.
  - destruct (handle e w) as [[x w']|[req pass]].
    + apply IH.
    + destruct results as [|r results]; [reflexivity | apply IH].
Qed.

(** How a submission whose POST was accepted ends, from how the refresh
    it triggers ends. *)
Lemma submit_accepted_exec (w : World) (newRestaurant : Draft) (post : FetchResult)
    (results : list FetchResult) :
  accepted post = true ->
  exec (handleAddRestaurant newRestaurant) (post :: results) w =
    match exec fetchRestaurants results (posted newRestaurant w) with
    | (w2, Returned _) => (with_error None w2, Returned tt)
    | (w2, Threw e) =>
        (record (EvConsole (js "Error adding restaurant:") e)
           (with_error (Some add_failure) w2), Returned tt)
    | (w2, Awaiting req k) =>
        (w2, Awaiting req (fun r => try_catch (bind (k r) (fun _ => setError None)) report))
    end.
Proof.
  intros Hpost.
  destruct post as [|[[] body]]; try discriminate Hpost.
  change (exec (handleAddRestaurant newRestaurant)
            (Resolved {| ok := true; json_body := body |} :: results) w)
    with (exec (try_catch (bind fetchRestaurants (fun _ => setError None)) report)
            results (posted newRestaurant w)).
  rewrite exec_guarded by reflexivity.
  destruct (exec fetchRestaurants results (posted newRestaurant w)) as [w2 [[]|e|req k]];
    reflexivity.
Qed.

(** A submission whose POST was accepted never ends with the retrieval
    failure message in the error slot: whether the refresh returns or
    throws, the slot is written after it. *)
Lemma submit_accepted_drops_load_failure (w w' : World) (newRestaurant : Draft)
    (post : FetchResult) (results : list FetchResult) (a : unit) :
  accepted post = true ->
  exec (handleAddRestaurant newRestaurant) (post :: results) w = (w', Returned a) ->
  error w' <> Some load_failure.
Proof.
  intros Hpost. rewrite submit_accepted_exec by assumption.
  destruct (exec fetchRestaurants results (posted newRestaurant w)) as [w2 [[]|e|req k]];
    intros [= <-]; discriminate.
Qed.

(** C10. When the POST is accepted and the refresh it triggers returns,
    the submission returns with the error slot cleared, whatever the
    refresh left in it, in particular the retrieval failure message of a
    refresh that failed on all three sources; the collection is the one of
    the refresh. And however the fetches of the refresh go, a submission
    whose POST is accepted does not end with the retrieval failure message
    in the slot. *)
Theorem submit_accepted_clears_error (w w2 : World) (newRestaurant : Draft)
    (post : FetchResult) (results : list FetchResult) :
  accepted post = true ->
  exec fetchRestaurants results (posted newRestaurant w) = (w2, Returned tt) ->
  (exists w',
     exec (handleAddRestaurant newRestaurant) (post :: results) w = (w', Returned tt) /\
     error w' = None /\
     restaurants w' = restaurants w2) /\
  (forall others w' a,
     exec (handleAddRestaurant newRestaurant) (post :: others) w = (w', Returned a) ->
     error w' <> Some (js "Failed to load restaurants. Please try again later.")).
Proof.
  intros Hpost Hrefresh. split.
  - rewrite submit_accepted_exec, Hrefresh by assumption.
    eexists; repeat split.
  - intros others w' a. by apply submit_accepted_drops_load_failure.
Qed.

(** *** The cache over a session *)

Lemma stored_store key value w : stored key (store key value w) = Some value.
Proof. unfold stored, store. cbn. apply lookup_insert_eq. Qed.

Lemma stored_store_ne key key' value w :
  key' <> key -> stored key (store key' value w) = stored key w.
Proof. intros Hne. unfold stored, store. cbn. by apply lookup_insert_ne. Qed.

Lemma reads_own_writes_nil : reads_own_writes [].
Proof. intros [|ev later] earlier v H; discriminate H. Qed.

Lemma reads_own_writes_cons ev h :
  (forall v, ev = EvGetItem storage_key v ->
     exists text, v = Some text /\ In (EvSetItem storage_key text) h) ->
  reads_own_writes h ->
  reads_own_writes (ev :: h).
Proof.
  intros Hev Hh [|ev' later] earlier v H; cbn in H; injection H as -> ->.
  - by apply Hev.
  - by eapply Hh.
Qed.

Lemma cache_inv_record ev w :
  (forall key v, ev <> EvGetItem key v) -> cache_inv w -> cache_inv (record ev w).
Proof.
  intros Hev [(text & Hs & Hin) Hr]. split.
  - exists text. split; [exact Hs | by right].
  - apply reads_own_writes_cons; [| exact Hr]. intros v ->. by destruct (Hev storage_key v).
Qed.

Lemma handle_cache_inv {X} (e : Eff X) (w w' : World) (x : X) :
  cache_inv w -> handle e w = inl (x, w') -> cache_inv w'.
Proof.
  intros Hinv H. destruct e; cbn in H; try discriminate H; injection H as <- <-;
    try exact Hinv.
  - by apply cache_inv_record.
  - destruct Hinv as [(text & Hs & Hin) Hr]. split.
    + exists text. split; [exact Hs | by right].
    + apply reads_own_writes_cons; [| exact Hr].
      intros v [= -> <-]. by exists text.
  - destruct Hinv as [(text & Hs & Hin) Hr]. split.
    + destruct (decide (key = storage_key)) as [->|Hne].
      * exists value. split; [apply stored_store | by left].
      * exists text. split; [| by right].
        change (stored storage_key (store key value w) = Some text).
        by rewrite stored_store_ne.
    + apply reads_own_writes_cons; [| exact Hr]. intros v Hv. discriminate Hv.
Qed.

Lemma run_sync_cache_inv {A} (p : Prog A) (w : World) :
  cache_inv w -> cache_inv (run_sync p w).1.
Proof.
  revert w. induction p as [a|e|X e k IH]; intros w Hinv; cbn; try exact Hinv.
  destruct (handle e w) as [[x w']|[req pass]] eqn:He.
  - apply IH. by eapply handle_cache_inv.
  - by apply cache_inv_record.
Qed.

Lemma call_cache_inv (p : Prog unit) (s : Session) :
  cache_inv (world s) -> cache_inv (world (call p s)).
Proof.
  intros Hinv. apply (run_sync_cache_inv p) in Hinv. unfold call.
  destruct (run_sync p (world s)) as [w' [a|e|req k]]; exact Hinv.
Qed.

Lemma step_cache_inv (s : Session) (input : Input) :
  cache_inv (world s) -> cache_inv (world (step s input)).
Proof.
  intros Hinv. destruct input as [i r| |d uuid now]; unfold step.
  - destruct (pending s !! i) as [[req k]|]; [| exact Hinv]. by apply call_cache_inv.
  - destruct (stale (world s)); [| exact Hinv]. by apply call_cache_inv.
  - by apply call_cache_inv.
Qed.

Lemma run_cache_inv (inputs : list Input) (s : Session) :
  cache_inv (world s) -> cache_inv (world (run inputs s)).
Proof.
  revert s. induction inputs as [|input inputs IH]; intros s Hinv; [exact Hinv |].
  apply IH. by apply step_cache_inv.
Qed.

(** The world that the two effects of the first render leave. *)
Lemma mount_world (store0 : gmap JsString JsString) :
  world (mount store0) =
    record (EvSetItem storage_key (JSON_stringify []))
      (store storage_key (JSON_stringify [])
         (record (EvFetch (GET (API_URL ++ js "/restaurants"))) (initial store0))).
Proof. reflexivity. Qed.

Lemma mount_cache_inv (store0 : gmap JsString JsString) :
  cache_inv (world (mount store0)).
Proof.
  rewrite mount_world. split.
  - exists (JSON_stringify []). split; [apply stored_store | by left].
  - repeat (apply reads_own_writes_cons; [intros v Hv; discriminate Hv |]).
    apply reads_own_writes_nil.
Qed.

(** **** What an earlier session left does not matter *)

Lemma tame_bind {A B} (p : Prog A) (f : A -> Prog B) :
  tame p -> (forall a, tame (f a)) -> tame (bind p f).
Proof. intros Hp Hf. induction Hp; cbn; [apply Hf | constructor | by constructor]. Qed.

Lemma tame_try_catch {A} (p : Prog A) (h : Exn -> Prog A) :
  tame p -> (forall e, tame (h e)) -> tame (try_catch p h).
Proof. intros Hp Hh. induction Hp; cbn; [constructor | apply Hh | by constructor]. Qed.

Lemma tame_try_finally {A} (p : Prog A) (f : Prog unit) :
  tame p -> tame f -> tame (try_finally p f).
Proof.
  intros Hp Hf. induction Hp; cbn; [| | by constructor];
    apply tame_bind; [exact Hf | intros; constructor | exact Hf | intros; constructor].
Qed.

Lemma tame_perform {X} (e : Eff X) : tame_eff e -> tame (perform e).
Proof. intros He. constructor; [exact He | intros x; constructor]. Qed.

Ltac tame_step :=
  first
    [ apply tame_try_finally | apply tame_try_catch | apply tame_bind
    | apply tame_perform; exact I
    | apply tame_perform; reflexivity
    | apply tame_Ret | apply tame_Throw
    | apply tame_Vis; [exact I |]
    | match goal with
      | |- tame (match ?x with _ => _ end) => destruct x
      end
    | intro ].

Lemma tame_fetchRestaurants : tame fetchRestaurants.
Proof.
  unfold fetchRestaurants, mbind, Prog_bind, fetch, response_json, throw_if, parse,
    setRestaurants, setError, setIsLoading, console_log, localStorage_getItem.
  repeat tame_step.
Qed.

Lemma tame_handleAddRestaurant (newRestaurant : Draft) :
  tame (handleAddRestaurant newRestaurant).
Proof.
  unfold handleAddRestaurant, mbind, Prog_bind, fetch, throw_if, setError,
    console_error, crypto_randomUUID, Date_now.
  repeat first [ apply tame_fetchRestaurants | tame_step ].
Qed.

Lemma tame_persist (c : Collection) : tame (persist c).
Proof. apply tame_perform. reflexivity. Qed.

Ltac agree_fields :=
  unfold agree, stored, store, with_localStorage in *;
  cbn [restaurants error isLoading entropy clock stale history localStorage
       with_restaurants with_error with_isLoading with_stale with_source record
       world pending fst snd] in *.

Lemma handle_agree {X} (e : Eff X) (w1 w2 : World) :
  tame_eff e -> agree w1 w2 ->
  match handle e w1, handle e w2 with
  | inl (x1, w1'), inl (x2, w2') => x1 = x2 /\ agree w1' w2'
  | inr c1, inr c2 => c1 = c2
  | _, _ => False
  end.
Proof.
  intros He Hw.
  destruct e; cbn [handle tame_eff] in *; try subst key; agree_fields;
    destruct Hw as (Hr & Herr & Hl & Hen & Hc & Hst & Hh & Hs);
    rewrite ?Hs, ?lookup_insert_eq; repeat split; congruence.
Qed.

Lemma run_sync_agree {A} (p : Prog A) (w1 w2 : World) :
  tame p -> agree w1 w2 ->
  (run_sync p w1).2 = (run_sync p w2).2 /\
  agree (run_sync p w1).1 (run_sync p w2).1.
Proof.
  intros Hp. revert w1 w2.
  induction Hp as [a|e|X e k He Hk IH]; intros w1 w2 Hw; cbn; [by split | by split |].
  pose proof (handle_agree e w1 w2 He Hw) as H.
  destruct (handle e w1) as [[x1 w1']|[req1 pass1]],
           (handle e w2) as [[x2 w2']|[req2 pass2]]; try contradiction.
  - destruct H as [<- Hw']. by apply IH.
  - injection H as <- <-. cbn [fst snd]. split; [reflexivity |].
    agree_fields. destruct Hw as (Hr & Herr & Hl & Hen & Hc & Hst & Hh & Hs).
    repeat split; congruence.
Qed.

Lemma run_sync_tame {A} (p : Prog A) (w w' : World) (req : Request)
    (k : FetchResult -> Prog A) :
  tame p -> run_sync p w = (w', Awaiting req k) -> forall r, tame (k r).
Proof.
  intros Hp. revert w.
  induction Hp as [a|e|X e k0 He Hk IH]; intros w H; cbn in H; try discriminate H.
  destruct (handle e w) as [[x w1]|[req1 pass1]].
  - by eapply IH.
  - injection H as _ _ <-. intros r. apply Hk.
Qed.

Lemma call_alike (p : Prog unit) (s1 s2 : Session) :
  tame p -> alike s1 s2 -> alike (call p s1) (call p s2).
Proof.
  intros Hp (Hpend & Htame & Hw).
  destruct (run_sync_agree p _ _ Hp Hw) as [Hst Hw'].
  pose proof (run_sync_tame p (world s1)) as Hk.
  unfold call.
  destruct (run_sync p (world s1)) as [w1 st1], (run_sync p (world s2)) as [w2 st2].
  cbn in Hst, Hw'. subst st2.
  destruct st1 as [a|e|req k]; (split; [| split]); cbn [world pending];
    try assumption.
  - by rewrite Hpend.
  - apply Forall_app. split; [exact Htame |].
    constructor; [| constructor]. cbn. by apply (Hk w1 req k Hp).
Qed.

Lemma step_alike (s1 s2 : Session) (input : Input) :
  alike s1 s2 -> alike (step s1 input) (step s2 input).
Proof.
  intros Hs. pose proof Hs as (Hpend & Htame & Hw).
  destruct input as [i r| |d uuid now]; unfold step.
  - rewrite <- Hpend. destruct (pending s1 !! i) as [[req k]|] eqn:Hi; [| exact Hs].
    apply call_alike.
    + rewrite Forall_lookup in Htame. apply (Htame i (req, k) Hi).
    + split; [| split]; cbn [world pending]; [by rewrite Hpend | | exact Hw].
      by apply Forall_delete.
  - destruct Hw as (Hr & Herr & Hl & Hen & Hc & Hst & Hh & Hsto).
    rewrite <- Hst, <- Hr. destruct (stale (world s1)); [| exact Hs].
    apply call_alike; [apply tame_persist |].
    unfold alike. agree_fields. repeat split; assumption.
  - apply call_alike; [apply tame_handleAddRestaurant |].
    destruct Hw as (Hr & Herr & Hl & Hen & Hc & Hst & Hh & Hsto).
    unfold alike. agree_fields. repeat split; assumption.
Qed.

Lemma run_alike (inputs : list Input) (s1 s2 : Session) :
  alike s1 s2 -> alike (run inputs s1) (run inputs s2).
Proof.
  revert s1 s2. induction inputs as [|input inputs IH]; intros s1 s2 Hs; [exact Hs |].
  apply IH. by apply step_alike.
Qed.

Lemma mount_alike (store1 store2 : gmap JsString JsString) :
  alike (mount store1) (mount store2).
Proof.
  split; [reflexivity | split].
  - constructor; [| constructor]. intros r.
    apply (run_sync_tame fetchRestaurants (initial store1) _ _ _ tame_fetchRestaurants
             eq_refl).
  - rewrite !mount_world. agree_fields.
    rewrite !lookup_insert_eq. repeat split.
Qed.

(** C9. On every start of the page, whatever an earlier session left in
    local storage, the persist effect has put the text of the empty
    collection under the key while the first fetch is still awaited, by
    the one write of the history so far. From then on, whatever happens, a
    read of the cache finds a text that a write of this session has put
    there, and the session goes as it goes on an empty local storage: the
    same calls in flight, the same state, history and cache. *)
Theorem mount_overwrites_cache (store0 : gmap JsString JsString) (inputs : list Input) :
  (stored storage_key (world (mount store0)) = Some (JSON_stringify []) /\
   restaurants (world (mount store0)) = [] /\
   map fst (pending (mount store0)) = [GET (API_URL ++ js "/restaurants")] /\
   history (world (mount store0)) =
     [ EvSetItem storage_key (JSON_stringify []);
       EvFetch (GET (API_URL ++ js "/restaurants")) ]) /\
  reads_own_writes (history (world (run inputs (mount store0)))) /\
  (pending (run inputs (mount store0)) = pending (run inputs (mount ∅)) /\
   agree (world (run inputs (mount store0))) (world (run inputs (mount ∅)))).
Proof.
  split; [| split].
  - rewrite mount_world. repeat split. apply stored_store.
  - apply run_cache_inv, mount_cache_inv.
  - destruct (run_alike inputs _ _ (mount_alike store0 ∅)) as (Hpend & _ & Hw).
    by split.
Qed.

(** *** Further properties of the component *)

Lemma obeys_bind {A B} P (p : Prog A) (f : A -> Prog B) :
  obeys P p -> (forall a, obeys P (f a)) -> obeys P (bind p f).
Proof. intros Hp Hf. induction Hp; cbn; [apply Hf | constructor | by constructor]. Qed.

Lemma obeys_try_catch {A} P (p : Prog A) (h : Exn -> Prog A) :
  obeys P p -> (forall e, obeys P (h e)) -> obeys P (try_catch p h).
Proof. intros Hp Hh. induction Hp; cbn; [constructor | apply Hh | by constructor]. Qed.

Lemma obeys_try_finally {A} P (p : Prog A) (f : Prog unit) :
  obeys P p -> obeys P f -> obeys P (try_finally p f).
Proof.
  intros Hp Hf. induction Hp; cbn; [| | by constructor];
    apply obeys_bind; [exact Hf | intros; constructor | exact Hf | intros; constructor].
Qed.

Lemma obeys_perform {X} P (e : Eff X) : P X e -> obeys P (perform e).
Proof. intros He. constructor; [exact He | intros x; constructor]. Qed.

Ltac obeys_step :=
  first
    [ apply obeys_try_finally | apply obeys_try_catch | apply obeys_bind
    | apply obeys_perform; exact I
    | apply obeys_Ret | apply obeys_Throw
    | apply obeys_Vis; [exact I |]
    | match goal with
      | |- obeys _ (match ?x with _ => _ end) => destruct x
      end
    | intro ].

Lemma fetchRestaurants_no_write : obeys no_write fetchRestaurants.
Proof.
  unfold fetchRestaurants, mbind, Prog_bind, fetch, response_json, throw_if, parse,
    setRestaurants, setError, setIsLoading, console_log, localStorage_getItem.
  repeat obeys_step.
Qed.

Lemma handleAddRestaurant_no_write (newRestaurant : Draft) :
  obeys no_write (handleAddRestaurant newRestaurant).
Proof.
  unfold handleAddRestaurant, mbind, Prog_bind, fetch, throw_if, setError,
    console_error, crypto_randomUUID, Date_now.
  repeat first [ apply fetchRestaurants_no_write | obeys_step ].
Qed.

(** What the allowed effects and the sending of a request keep, a call
    keeps, however far it gets. *)
Lemma exec_preserves {A} P (I : World -> Prop) (p : Prog A) :
  (forall X (e : Eff X) w x w', P X e -> I w -> handle e w = inl (x, w') -> I w') ->
  (forall req w, I w -> I (record (EvFetch req) w)) ->
  obeys P p ->
  forall results w, I w -> I (exec p results w).1.
Proof.
  intros Heff Hreq Hp.
  induction Hp as [a|e|X e k He Hk IH]; intros results w Hw; cbn; try exact Hw.
  destruct (handle e w) as [[x w']|[req pass]] eqn:Hh.
  - apply IH. by eapply Heff.
  - destruct results as [|r results]; cbn; [by apply Hreq |].
    apply IH. by apply Hreq.
Qed.

Lemma run_sync_preserves {A} P (I : World -> Prop) (p : Prog A) :
  (forall X (e : Eff X) w x w', P X e -> I w -> handle e w = inl (x, w') -> I w') ->
  (forall req w, I w -> I (record (EvFetch req) w)) ->
  obeys P p ->
  forall w, I w -> I (run_sync p w).1.
Proof.
  intros Heff Hreq Hp.
  induction Hp as [a|e|X e k He Hk IH]; intros w Hw; cbn; try exact Hw.
  destruct (handle e w) as [[x w']|[req pass]] eqn:Hh.
  - apply IH. by eapply Heff.
  - by apply Hreq.
Qed.

Lemma run_sync_obeys {A} P (p : Prog A) (w w' : World) (req : Request)
    (k : FetchResult -> Prog A) :
  obeys P p -> run_sync p w = (w', Awaiting req k) -> forall r, obeys P (k r).
Proof.
  intros Hp. revert w.
  induction Hp as [a|e|X e k0 He Hk IH]; intros w H; cbn in H; try discriminate H.
  destruct (handle e w) as [[x w1]|[req1 pass1]].
  - by eapply IH.
  - injection H as _ _ <-. intros r. apply Hk.
Qed.

(** A refresh whose primary fetch obtains a collection. *)
Lemma refresh_primary_exec (w : World) (primary : FetchResult) (later : list FetchResult)
    (data : Collection) :
  obtained primary = Some data ->
  exec fetchRestaurants (primary :: later) w =
    (with_isLoading false
       (with_error None
          (with_restaurants data
             (record (EvFetch (GET (API_URL ++ js "/restaurants")))
                (with_isLoading true w)))),
     Returned tt).
Proof.
  intros Hp. case_result primary; try discriminate Hp. injection Hp as ->. reflexivity.
Qed.

(** A refresh whose primary fetch fails and whose fallback fetch obtains
    a collection. *)
Lemma refresh_fallback_exec (w : World) (primary fallback : FetchResult)
    (later : list FetchResult) (data : Collection) :
  obtained primary = None ->
  obtained fallback = Some data ->
  exec fetchRestaurants (primary :: fallback :: later) w =
    (with_isLoading false
       (with_error None
          (with_restaurants data
             (record (EvFetch (GET (js "http://localhost:3000/api/restaurants")))
                (record (EvConsole (js "Primary API error:")
                           (failure (js "Primary API failed") primary))
                   (record (EvFetch (GET (API_URL ++ js "/restaurants")))
                      (with_isLoading true w)))))),
     Returned tt).
Proof.
  intros Hp Hf.
  case_result primary; try discriminate Hp;
    (case_result fallback; try discriminate Hf); injection Hf as ->; reflexivity.
Qed.

(** A refresh whose two fetches fail: it ends as the cache decides. *)
Lemma refresh_offline_exec (w : World) (primary fallback : FetchResult)
    (later : list FetchResult) :
  obtained primary = None ->
  obtained fallback = None ->
  exec fetchRestaurants (primary :: fallback :: later) w =
    match stored storage_key w with
    | Some (c :: text) =>
        match JSON_parse (c :: text) with
        | Some data =>
            (with_isLoading false
               (with_error None
                  (with_restaurants data (offline_world primary fallback w))),
             Returned tt)
        | None => (with_isLoading false (offline_world primary fallback w),
                   Threw SyntaxError)
        end
    | _ => (with_isLoading false (offline_world primary fallback w), Returned tt)
    end.
Proof.
  intros Hp Hf. destruct w as [rs err ld m ent clk st hist].
  case_result primary; try discriminate Hp;
    (case_result fallback; try discriminate Hf);
    crunch; destruct (m !! storage_key) as [[|c text]|]; try reflexivity;
    destruct (JSON_parse (c :: text)); reflexivity.
Qed.

(** X10. A refresh whose primary fetch obtains a collection returns with
    that collection in memory, the error slot cleared and the loading flag
    down, after this one request: no fallback request, no console line, no
    access to local storage, whatever results would have come later. *)
Theorem refresh_primary_succeeds (w : World) (primary : FetchResult)
    (later : list FetchResult) (data : Collection) :
  obtained primary = Some data ->
  exists w',
    exec fetchRestaurants (primary :: later) w = (w', Returned tt) /\
    restaurants w' = data /\
    error w' = None /\
    isLoading w' = false /\
    localStorage w' = localStorage w /\
    history w' = EvFetch (GET (API_URL ++ js "/restaurants")) :: history w.
Proof.
  intros Hp. rewrite (refresh_primary_exec w primary later data Hp).
  eexists. repeat split.
Qed.

(** X11. The loading flag is up exactly while a refresh awaits a fetch:
    however many results arrive and whatever they are, the flag is up if
    the refresh is still awaiting and down if it has returned or thrown. *)
Theorem refresh_loading_flag (results : list FetchResult) (w : World) :
  isLoading (exec fetchRestaurants results w).1 =
  in_flight (exec fetchRestaurants results w).2.
Proof.
  destruct results as [|primary [|fallback later]].
  - reflexivity.
  - destruct (obtained primary) as [data|] eqn:Hp.
    + by rewrite (refresh_primary_exec w primary [] data Hp).
    + case_result primary; try discriminate Hp; reflexivity.
  - destruct (obtained primary) as [data|] eqn:Hp.
    + by rewrite (refresh_primary_exec w primary _ data Hp).
    + destruct (obtained fallback) as [data|] eqn:Hf.
      * by rewrite (refresh_fallback_exec w primary fallback later data Hp Hf).
      * rewrite (refresh_offline_exec w primary fallback later Hp Hf).
        destruct (stored storage_key w) as [[|c text]|]; try reflexivity.
        destruct (JSON_parse (c :: text)); reflexivity.
Qed.

(** X12. When both fetches fail and the text in the cache is not JSON,
    the refresh throws the [SyntaxError] of [JSON.parse] to its caller; the
    failure message stays in the error slot, the collection is unchanged
    and the loading flag is down. *)
Theorem refresh_corrupt_cache_throws (w : World) (primary fallback : FetchResult)
    (later : list FetchResult) (text : JsString) :
  obtained primary = None ->
  obtained fallback = None ->
  stored storage_key w = Some text ->
  text <> [] ->
  JSON_parse text = None ->
  exists w',
    exec fetchRestaurants (primary :: fallback :: later) w = (w', Threw SyntaxError) /\
    restaurants w' = restaurants w /\
    error w' = Some (js "Failed to load restaurants. Please try again later.") /\
    isLoading w' = false.
Proof.
  intros Hp Hf Hs Hne Hj. destruct text as [|c text]; [done |].
  rewrite (refresh_offline_exec w primary fallback later Hp Hf), Hs, Hj.
  eexists. repeat split.
Qed.


Lemma no_write_handle_storage {X} (e : Eff X) (w w' : World) (x : X)
    (m : gmap JsString JsString) :
  no_write X e -> localStorage w = m -> handle e w = inl (x, w') -> localStorage w' = m.
Proof.
  intros He Hw H. destruct e; cbn in H; try discriminate H; try destruct He;
    injection H as <- <-; exact Hw.
Qed.

(** X14. Neither [fetchRestaurants] nor [handleAddRestaurant] writes to
    local storage, however far they get and whatever the results are: what
    is stored changes by the persist effect alone. *)
Theorem only_the_persist_effect_writes (newRestaurant : Draft)
    (results : list FetchResult) (w : World) :
  localStorage (exec fetchRestaurants results w).1 = localStorage w /\
  localStorage (exec (handleAddRestaurant newRestaurant) results w).1 = localStorage w.
Proof.
  split.
  - apply (exec_preserves no_write (fun w' => localStorage w' = localStorage w));
      [| done | apply fetchRestaurants_no_write | done].
    intros X e w1 x w2. apply no_write_handle_storage.
  - apply (exec_preserves no_write (fun w' => localStorage w' = localStorage w));
      [| done | apply handleAddRestaurant_no_write | done].
    intros X e w1 x w2. apply no_write_handle_storage.
Qed.

(** A [try] whose [catch] clause always completes throws nothing. *)
Lemma exec_try_catch_caught {A} (p : Prog A) (h : Exn -> Prog A) :
  (forall e rs w, thrown (exec (h e) rs w).2 = None) ->
  forall results w, thrown (exec (try_catch p h) results w).2 = None.
Proof.
  intros Hh. induction p as [a|e|X e k IH]; intros results w; cbn.
  - reflexivity.
  - apply Hh.
  - destruct (handle e w) as [[x w']|[req pass]]; [apply IH |].
    destruct results as [|r results]; [reflexivity | apply IH].
Qed.

(** X15. [handleAddRestaurant] never throws to the form that calls it:
    whatever the POST and the fetches of the refresh give, and also when the
    refresh throws, the call returns or is still awaiting. *)
Theorem submit_never_throws (newRestaurant : Draft) (results : list FetchResult)
    (w : World) :
  thrown (exec (handleAddRestaurant newRestaurant) results w).2 = None.
Proof.
  unfold handleAddRestaurant. apply exec_try_catch_caught.
  intros e rs w0. reflexivity.
Qed.

(** X16. When the POST is accepted, both fetches of the refresh fail and
    the text in the cache is not JSON, the submission ends with
    "Failed to add restaurant. Please try again." in the error slot,
    although the server has accepted the restaurant; the collection is
    unchanged. *)
Theorem submit_accepted_reports_failure_on_corrupt_cache (w : World)
    (newRestaurant : Draft) (post primary fallback : FetchResult)
    (later : list FetchResult) (text : JsString) :
  accepted post = true ->
  obtained primary = None ->
  obtained fallback = None ->
  stored storage_key w = Some text ->
  text <> [] ->
  JSON_parse text = None ->
  exists w',
    exec (handleAddRestaurant newRestaurant) (post :: primary :: fallback :: later) w
      = (w', Returned tt) /\
    error w' = Some (js "Failed to add restaurant. Please try again.") /\
    restaurants w' = restaurants w /\
    history w' =
      EvConsole (js "Error adding restaurant:") SyntaxError
      :: history (offline_world primary fallback (posted newRestaurant w)).
Proof.
  intros Hpost Hp Hf Hs Hne Hj. destruct text as [|c text]; [done |].
  rewrite (submit_accepted_exec w newRestaurant post _ Hpost).
  rewrite (refresh_offline_exec _ primary fallback later Hp Hf).
  change (stored storage_key (posted newRestaurant w)) with (stored storage_key w).
  rewrite Hs, Hj. eexists. split; [reflexivity |]. repeat split.
Qed.

(** X17. When the POST is accepted and the primary fetch of the refresh
    obtains a collection, the submission returns with exactly that
    collection in memory (the new restaurant is in it only if the server
    has sent it back), the error slot cleared and the loading flag down.
    Two requests were made: the POST, whose body is the draft with the
    [id] and the [timestamp] that [crypto.randomUUID()] and [Date.now()]
    gave, then the GET. *)
Theorem submit_accepted_adopts_server_collection (w : World) (newRestaurant : Draft)
    (post primary : FetchResult) (later : list FetchResult) (data : Collection) :
  accepted post = true ->
  obtained primary = Some data ->
  exists w',
    exec (handleAddRestaurant newRestaurant) (post :: primary :: later) w
      = (w', Returned tt) /\
    restaurants w' = data /\
    error w' = None /\
    isLoading w' = false /\
    history w' =
      [ EvFetch (GET (API_URL ++ js "/restaurants"));
        EvFetch (POST (API_URL ++ js "/restaurants")
                   (complete newRestaurant (entropy w) (clock w))) ] ++ history w.
Proof.
  intros Hpost Hp.
  rewrite (submit_accepted_exec w newRestaurant post _ Hpost).
  rewrite (refresh_primary_exec _ primary later data Hp).
  eexists. repeat split.
Qed.

(** X18. A refresh without network in a world whose cache holds the text
    of the collection in memory, a text that [JSON.parse] reads back, is
    silent: it returns with the same collection and with the error slot
    cleared, the failure message gone. *)
Theorem offline_refresh_is_silent (w : World) (primary fallback : FetchResult)
    (later : list FetchResult) :
  obtained primary = None ->
  obtained fallback = None ->
  stored storage_key w = Some (JSON_stringify (restaurants w)) ->
  JSON_stringify (restaurants w) <> [] ->
  JSON_parse (JSON_stringify (restaurants w)) = Some (restaurants w) ->
  exists w',
    exec fetchRestaurants (primary :: fallback :: later) w = (w', Returned tt) /\
    restaurants w' = restaurants w /\
    error w' = None.
Proof.
  intros Hp Hf Hs Hne Hj.
  rewrite (refresh_offline_exec w primary fallback later Hp Hf), Hs.
  destruct (JSON_stringify (restaurants w)) as [|c text]; [done |].
  rewrite Hj. eexists. repeat split.
Qed.

(** **** The cache follows the collection *)

Lemma synced_handle {X} (e : Eff X) (w : World) (x : X) (w' : World) :
  no_write X e -> synced w -> handle e w = inl (x, w') -> synced w'.
Proof.
  intros He Hw H. destruct e; cbn in H; try discriminate H; try destruct He;
    injection H as <- <-; try exact Hw.
  intros Hstale. discriminate Hstale.
Qed.

Lemma call_steady (p : Prog unit) (s : Session) :
  obeys no_write p -> steady s -> steady (call p s).
Proof.
  intros Hp [Hw Hpend].
  pose proof (run_sync_preserves no_write synced p (@synced_handle)
                (fun req w H => H) Hp (world s) Hw) as Hw'.
  pose proof (run_sync_obeys no_write p (world s)) as Hk.
  unfold call. destruct (run_sync p (world s)) as [w' [a|e|req k]]; split; try assumption.
  apply Forall_app. split; [exact Hpend |].
  constructor; [| constructor]. cbn. by apply (Hk w' req k Hp).
Qed.

(** The persist effect, run for the collection in memory. *)
Lemma persist_steady (w : World) (l : list (Request * (FetchResult -> Prog unit))) :
  Forall (fun c => forall r, obeys no_write (c.2 r)) l ->
  steady (call (persist (restaurants w)) {| world := with_stale false w; pending := l |}).
Proof.
  intros Hl. split; [| exact Hl]. intros _.
  apply (stored_store storage_key (JSON_stringify (restaurants w))).
Qed.

Lemma step_steady (s : Session) (input : Input) : steady s -> steady (step s input).
Proof.
  intros Hs. pose proof Hs as [Hw Hpend].
  destruct input as [i r| |d uuid now]; unfold step.
  - destruct (pending s !! i) as [[req k]|] eqn:Hi; [| exact Hs].
    apply call_steady.
    + rewrite Forall_lookup in Hpend. apply (Hpend i (req, k) Hi).
    + split; [exact Hw | by apply Forall_delete].
  - destruct (stale (world s)); [| exact Hs]. by apply persist_steady.
  - apply call_steady; [apply handleAddRestaurant_no_write |]. by split.
Qed.

Lemma run_steady (inputs : list Input) (s : Session) :
  steady s -> steady (run inputs s).
Proof.
  revert s. induction inputs as [|input inputs IH]; intros s Hs; [exact Hs |].
  apply IH. by apply step_steady.
Qed.

Lemma mount_steady (store0 : gmap JsString JsString) : steady (mount store0).
Proof.
  split.
  - intros _. rewrite mount_world.
    apply (stored_store storage_key (JSON_stringify [])).
  - constructor; [| constructor]. intros r.
    apply (run_sync_obeys no_write fetchRestaurants (initial store0) _ _ _
             fetchRestaurants_no_write eq_refl).
Qed.

(** X19. Over a whole session the cache follows the collection: whatever
    responses arrive and whatever is submitted, and in whatever order, once
    React has committed the latest [setRestaurants] the item under the key
    is [JSON.stringify] of the collection in memory; the commit itself does
    not change the collection. *)
Theorem cache_follows_collection (store0 : gmap JsString JsString) (inputs : list Input) :
  let s := run inputs (mount store0) in
  (stale (world s) = false ->
   stored storage_key (world s) = Some (JSON_stringify (restaurants (world s)))) /\
  stored storage_key (world (step s Commit)) =
    Some (JSON_stringify (restaurants (world s))) /\
  restaurants (world (step s Commit)) = restaurants (world s).
Proof.
  cbn zeta. pose proof (run_steady inputs _ (mount_steady store0)) as [Hw _].
  split; [exact Hw |].
  unfold step. destruct (stale (world (run inputs (mount store0)))) eqn:Hstale.
  - split; [| reflexivity].
    apply (stored_store storage_key (JSON_stringify _)).
  - split; [by apply Hw | reflexivity].
Qed.

(** X20. The first load without network shows no error: when the two
    fetches of the refresh that the mount has started fail, the refresh
    reads from the cache the text of the empty collection that the persist
    effect has just put there, so that it ends with an empty collection and
    a cleared error slot, whatever an earlier session had stored. The text
    that [JSON.stringify] gives for the empty collection is taken to be one
    that [JSON.parse] reads back. *)
Theorem first_load_offline_shows_no_error (store0 : gmap JsString JsString)
    (primary fallback : FetchResult) :
  obtained primary = None ->
  obtained fallback = None ->
  JSON_stringify [] <> [] ->
  JSON_parse (JSON_stringify []) = Some [] ->
  let s := run [Respond 0 primary; Respond 0 fallback] (mount store0) in
  restaurants (world s) = [] /\
  error (world s) = None /\
  isLoading (world s) = false /\
  pending s = [].
Proof.
  intros Hp Hf Hne Hj s. subst s.
  assert ((<[storage_key := JSON_stringify []]> store0 : gmap JsString JsString)
            !! storage_key = Some (JSON_stringify [])) as Hm
    by apply lookup_insert_eq.
  change (mount store0) with
    {| world :=
         {| restaurants := []; error := None; isLoading := true;
            localStorage := <[storage_key := JSON_stringify []]> store0;
            entropy := []; clock := 0; stale := false;
            history := [ EvSetItem storage_key (JSON_stringify []);
                         EvFetch (GET (API_URL ++ js "/restaurants")) ] |};
       pending := pending (mount ∅) |}.
  generalize dependent (<[storage_key := JSON_stringify []]> store0). intros m Hm.
  destruct (JSON_stringify []) as [|c text]; [done |].
  match goal with
  | |- context [run ?inputs ?s0] => remember (run inputs s0) as s eqn:Hs
  end.
  case_result primary; try discriminate Hp;
    (case_result fallback; try discriminate Hf);
    lazy -[stored store js storage_key load_failure API_URL] in Hs;
    unfold stored in Hs; cbn [localStorage] in Hs; rewrite Hm, Hj in Hs;
    subst s; repeat split.
Qed.

End App.

(** ** The address of the API *)

Section Configuration.

Variable JSON_parse : JsString -> option Collection.

(** X21. When [VITE_API_URL] is not set, or set to the empty text, the
    primary address is the hardcoded localhost address: a refresh whose
    primary fetch fails sends its fallback request to the very address that
    has just failed. *)
Theorem unset_api_url_repeats_the_request (VITE_API_URL : option JsString) (w : World)
    (primary fallback : FetchResult) (data : Collection) :
  truthy VITE_API_URL = false ->
  obtained primary = None ->
  obtained fallback = Some data ->
  exists w' e,
    exec (fetchRestaurants VITE_API_URL JSON_parse) [primary; fallback] w
      = (w', Returned tt) /\
    restaurants w' = data /\
    history w' =
      [ EvFetch (GET (js "http://localhost:3000/api/restaurants"));
        EvConsole (js "Primary API error:") e;
        EvFetch (GET (js "http://localhost:3000/api/restaurants")) ] ++ history w.
Proof.
  intros Hurl Hp Hf.
  rewrite (refresh_fallback_exec VITE_API_URL JSON_parse w primary fallback [] data Hp Hf).
  destruct VITE_API_URL as [[|c url]|]; try discriminate Hurl;
    eexists; eexists; repeat split.
Qed.

End Configuration.

(** ** Properties of the pipeline *)

Section Sorting.

Context {A : Type} (cmp : A -> A -> Z).

Lemma sort_insert_perm (x : A) (l : list A) :
  Permutation (sort_insert cmp x l) (x :: l).
Proof.
  induction l as [|y l IH]; cbn; [reflexivity |].
  destruct (0 <? cmp x y); [| reflexivity].
  rewrite IH. apply perm_swap.
Qed.

Lemma Array_sort_cons (x : A) (l : list A) :
  Array_sort cmp (x :: l) = sort_insert cmp x (Array_sort cmp l).
Proof. reflexivity. Qed.

Lemma Array_sort_perm (l : list A) : Permutation (Array_sort cmp l) l.
Proof.
  induction l as [|x l IH]; [reflexivity |].
  rewrite Array_sort_cons, sort_insert_perm. by constructor.
Qed.

(** A comparator that answers 0 moves nothing. *)
Lemma Array_sort_indifferent (l : list A) :
  (forall a b, cmp a b = 0) -> Array_sort cmp l = l.
Proof.
  intros Hcmp. induction l as [|x l IH]; [reflexivity |].
  rewrite Array_sort_cons, IH. destruct l as [|y l]; cbn; [reflexivity |].
  by rewrite Hcmp.
Qed.

(** The comparator is the order of a numeric key. *)
Variable key : A -> Z.
Hypothesis cmp_key : forall a b, 0 < cmp a b <-> key b < key a.

Lemma sort_insert_sorted (x : A) (l : list A) :
  StronglySorted (fun a b => key a <= key b) l ->
  StronglySorted (fun a b => key a <= key b) (sort_insert cmp x l).
Proof.
  induction 1 as [|y l Hl IH Hy]; cbn.
  - constructor; constructor.
  - destruct (0 <? cmp x y) eqn:Hxy.
    + apply Z.ltb_lt, cmp_key in Hxy. constructor; [exact IH |].
      rewrite sort_insert_perm. constructor; [lia | exact Hy].
    + apply Z.ltb_ge in Hxy.
      assert (key x <= key y) as Hle.
      { destruct (Z.le_gt_cases (key x) (key y)) as [|Hgt]; [done |].
        apply cmp_key in Hgt. lia. }
      constructor; [by constructor |].
      constructor; [exact Hle |].
      eapply Forall_impl; [exact Hy |]. cbn. intros z Hz. lia.
Qed.

Lemma StronglySorted_weaken (P : A -> Prop) (R S : A -> A -> Prop) (l : list A) :
  Forall P l ->
  (forall a b, P a -> P b -> R a b -> S a b) ->
  StronglySorted R l -> StronglySorted S l.
Proof.
  intros HP HRS Hl. induction Hl as [|x l Hl IH Hx]; [constructor |].
  apply Forall_cons_1 in HP as [Hpx HP]. constructor; [by apply IH |].
  rewrite List.Forall_forall in *. intros y Hy. apply HRS; auto.
Qed.

Lemma Array_sort_sorted (l : list A) :
  StronglySorted (fun a b => key a <= key b) (Array_sort cmp l).
Proof.
  induction l as [|x l IH]; [constructor |].
  rewrite Array_sort_cons. by apply sort_insert_sorted.
Qed.

(** A list already in the order of the key is left as it is. *)
Lemma Array_sort_fixed (l : list A) :
  StronglySorted (fun a b => key a <= key b) l -> Array_sort cmp l = l.
Proof.
  induction 1 as [|x l Hl IH Hx]; [reflexivity |].
  rewrite Array_sort_cons, IH. destruct l as [|y l]; [reflexivity |].
  cbn. apply Forall_cons_1 in Hx as [Hxy _].
  destruct (0 <? cmp x y) eqn:Hc; [| reflexivity].
  apply Z.ltb_lt, cmp_key in Hc. lia.
Qed.

(** Insertion goes past smaller keys only: among the elements of one
    key nothing changes place. *)
Lemma sort_insert_stable (v : Z) (x : A) (l : list A) :
  List.filter (fun a => key a =? v) (sort_insert cmp x l) =
  List.filter (fun a => key a =? v) (x :: l).
Proof.
  induction l as [|y l IH]; [reflexivity |].
  cbn [sort_insert]. destruct (0 <? cmp x y) eqn:Hc; [| reflexivity].
  apply Z.ltb_lt, cmp_key in Hc.
  cbn [List.filter] in *. rewrite IH.
  destruct (key x =? v) eqn:Hx, (key y =? v) eqn:Hy; try reflexivity.
  apply Z.eqb_eq in Hx, Hy. lia.
Qed.

Lemma Array_sort_stable (v : Z) (l : list A) :
  List.filter (fun a => key a =? v) (Array_sort cmp l) =
  List.filter (fun a => key a =? v) l.
Proof.
  induction l as [|x l IH]; [reflexivity |].
  rewrite Array_sort_cons, sort_insert_stable. cbn [List.filter]. by rewrite IH.
Qed.

End Sorting.

Section Strings.

Lemma startsWith_prefix (s t : JsString) :
  startsWith s t = true <-> exists after, s = t ++ after.
Proof.
  revert s. induction t as [|c t IH]; intros s; cbn.
  - split; [intros _; by exists s | reflexivity].
  - destruct s as [|d s].
    + split; [intros H; discriminate H | intros [after H]; discriminate H].
    + rewrite andb_true_iff, N.eqb_eq, IH. split.
      * intros [-> [after ->]]. by exists after.
      * intros [after [= -> ->]]. split; [done | by exists after].
Qed.

Lemma includes_substring (s t : JsString) :
  includes s t = true <-> substring t s.
Proof.
  unfold substring. induction s as [|d s IH]; cbn.
  - rewrite orb_false_r, startsWith_prefix. split.
    + intros [after H]. by exists [], after.
    + intros (before & after & H). destruct before as [|b before]; [| discriminate H].
      by exists after.
  - rewrite orb_true_iff, startsWith_prefix, IH. split.
    + intros [[after H]|(before & after & H)].
      * by exists [], after.
      * exists (d :: before), after. by rewrite H.
    + intros (before & after & H). destruct before as [|b before].
      * left. by exists after.
      * right. injection H as -> ->. by exists before, after.
Qed.

Lemma includes_empty (s : JsString) : includes s [] = true.
Proof. apply includes_substring. by exists [], s. Qed.

Lemma symbol_rank_length (p : JsString) :
  In p price_symbols -> symbol_rank p = Z.of_nat (length p).
Proof. intros [<-|[<-|[<-|[<-|[]]]]]; reflexivity. Qed.

End Strings.

Section PipelineProperties.

Variable toLowerCase : JsString -> JsString.

Abbreviation pipeline := (filteredAndSortedRestaurants toLowerCase).
Abbreviation kept := (keep toLowerCase).

(** C4. With the sort key "newest" the pipeline yields the restaurants
    that pass the filters, each as often as it passes, in an order in
    which timestamps never increase; with "oldest", in an order in which
    they never decrease. *)
Theorem sort_by_timestamp (C : Collection) (searchTerm cuisineFilter priceFilter : JsString) :
  (Permutation (pipeline C searchTerm cuisineFilter priceFilter (js "newest"))
     (List.filter (kept searchTerm cuisineFilter priceFilter) C) /\
   StronglySorted (fun a b => timestamp a >= timestamp b)
     (pipeline C searchTerm cuisineFilter priceFilter (js "newest"))) /\
  (Permutation (pipeline C searchTerm cuisineFilter priceFilter (js "oldest"))
     (List.filter (kept searchTerm cuisineFilter priceFilter) C) /\
   StronglySorted (fun a b => timestamp a <= timestamp b)
     (pipeline C searchTerm cuisineFilter priceFilter (js "oldest"))).
Proof.
  unfold filteredAndSortedRestaurants. repeat split; try apply Array_sort_perm.
  - eapply (StronglySorted_weaken (fun _ => True));
      [| | apply (Array_sort_sorted _ (fun r => - timestamp r))].
    + by apply Forall_true.
    + cbn. intros a b _ _. lia.
    + intros a b. change (compareBy (js "newest") a b) with (timestamp b - timestamp a). lia.
  - apply (Array_sort_sorted _ timestamp).
    intros a b. change (compareBy (js "oldest") a b) with (timestamp a - timestamp b). lia.
Qed.

Lemma pipeline_from_collection (C : Collection)
    (searchTerm cuisineFilter priceFilter sortBy : JsString) (r : Restaurant) :
  In r (pipeline C searchTerm cuisineFilter priceFilter sortBy) -> In r C.
Proof.
  intros Hr. unfold filteredAndSortedRestaurants in Hr.
  eapply Permutation_in in Hr; [| apply Array_sort_perm].
  by apply List.filter_In in Hr as [Hr _].
Qed.

(** C5. On a collection whose price ranges are among the four symbols,
    the sort key "price-asc" yields an order in which the rank of the
    symbol, 1 for one euro sign up to 4 for four, never decreases, and
    "price-desc" one in which it never increases; on what the pipeline
    yields this rank is the length of the symbol string that the
    comparator subtracts. *)
Theorem sort_by_price (C : Collection) (searchTerm cuisineFilter priceFilter : JsString) :
  Forall has_tier_symbol C ->
  StronglySorted (fun a b => symbol_rank (priceRange a) <= symbol_rank (priceRange b))
    (pipeline C searchTerm cuisineFilter priceFilter (js "price-asc")) /\
  StronglySorted (fun a b => symbol_rank (priceRange a) >= symbol_rank (priceRange b))
    (pipeline C searchTerm cuisineFilter priceFilter (js "price-desc")) /\
  (forall sortBy,
     Forall (fun r => symbol_rank (priceRange r) = tier r /\ 1 <= tier r <= 4)
       (pipeline C searchTerm cuisineFilter priceFilter sortBy)).
Proof.
  intros HC.
  assert (forall sortBy, Forall (fun r => symbol_rank (priceRange r) = tier r /\ 1 <= tier r <= 4)
            (pipeline C searchTerm cuisineFilter priceFilter sortBy)) as Hrank.
  { intros sortBy. apply List.Forall_forall. intros r Hr.
    apply pipeline_from_collection in Hr.
    rewrite List.Forall_forall in HC. specialize (HC r Hr).
    split; [by apply symbol_rank_length |].
    unfold tier. destruct HC as [<-|[<-|[<-|[<-|[]]]]]; cbn; lia. }
  repeat split; [| | exact Hrank].
  - eapply StronglySorted_weaken; [apply Hrank | |].
    + cbn. intros a b [-> _] [-> _] Hab. exact Hab.
    + apply (Array_sort_sorted _ tier). intros a b.
      change (compareBy (js "price-asc") a b) with (tier a - tier b). lia.
  - eapply (StronglySorted_weaken _ (fun a b => - tier a <= - tier b));
      [apply Hrank | |].
    + cbn. intros a b [-> _] [-> _] Hab. lia.
    + apply (Array_sort_sorted _ (fun r => - tier r)). intros a b.
      change (compareBy (js "price-desc") a b) with (tier b - tier a). lia.
Qed.

(** C7. With the cuisine filter "All" and the price filter "all" the
    pipeline yields what it yields with the cuisine and the price
    predicates removed, for every collection, search term and sort key. *)
Theorem sentinel_filters_are_identity (C : Collection) (searchTerm sortBy : JsString) :
  pipeline C searchTerm (js "All") (js "all") sortBy =
  searchedAndSortedRestaurants toLowerCase C searchTerm sortBy.
Proof.
  unfold filteredAndSortedRestaurants, searchedAndSortedRestaurants. f_equal.
  apply List.filter_ext. intros r. unfold keep, matchesCuisine, matchesPrice.
  change (str_eqb (js "All") (js "All")) with true.
  change (str_eqb (js "all") (js "all")) with true.
  cbn. by rewrite !andb_true_r.
Qed.

(** On ASCII text the built-in lowers the letters A to Z and keeps the
    rest. *)
Hypothesis toLowerCase_ascii :
  forall s, is_ascii s -> toLowerCase s = map ascii_lower s.

(** C6. A restaurant passes the search exactly when the lowercased term
    occurs in its lowercased name or in its lowercased description; the
    empty term is passed by every restaurant, and a restaurant named
    "Tofu House" passes the term "tofu". *)
Theorem search_is_substring_match :
  (forall (r : Restaurant) (searchTerm : JsString),
     matchesSearch toLowerCase searchTerm r = true <->
     substring (toLowerCase searchTerm) (toLowerCase (name r)) \/
     substring (toLowerCase searchTerm) (toLowerCase (description r))) /\
  (forall r : Restaurant, matchesSearch toLowerCase [] r = true) /\
  (forall r : Restaurant,
     name r = js "Tofu House" -> matchesSearch toLowerCase (js "tofu") r = true).
Proof.
  repeat split.
  - unfold matchesSearch. rewrite orb_true_iff, !includes_substring. tauto.
  - unfold matchesSearch. rewrite orb_true_iff, !includes_substring. tauto.
  - intros r. unfold matchesSearch.
    rewrite (toLowerCase_ascii []) by constructor. cbn.
    by rewrite includes_empty.
  - intros r Hname. unfold matchesSearch. rewrite Hname.
    rewrite !toLowerCase_ascii by (repeat constructor).
    reflexivity.
Qed.

(** *** Further properties of the pipeline *)

Lemma compareBy_sort_key (sortBy : JsString) (a b : Restaurant) :
  compareBy sortBy a b = sort_key sortBy a - sort_key sortBy b.
Proof.
  unfold compareBy, sort_key.
  repeat match goal with |- context [str_eqb ?s ?t] => destruct (str_eqb s t) end; lia.
Qed.

Lemma compareBy_order (sortBy : JsString) (a b : Restaurant) :
  0 < compareBy sortBy a b <-> sort_key sortBy b < sort_key sortBy a.
Proof. rewrite compareBy_sort_key. lia. Qed.

Lemma filter_all_pass {A} (f : A -> bool) (l : list A) :
  (forall x, In x l -> f x = true) -> List.filter f l = l.
Proof.
  induction l as [|x l IH]; intros Hl; [reflexivity |]. cbn.
  rewrite (Hl x) by (by left). f_equal. apply IH. intros y Hy. apply Hl. by right.
Qed.

(** X1. Whatever the sort key, recognised or not, the pipeline yields
    exactly the restaurants that pass the three predicates, each as often
    as the collection has it. *)
Theorem pipeline_yields_the_passing (C : Collection)
    (searchTerm cuisineFilter priceFilter sortBy : JsString) :
  Permutation (pipeline C searchTerm cuisineFilter priceFilter sortBy)
    (List.filter (kept searchTerm cuisineFilter priceFilter) C) /\
  (forall r, In r (pipeline C searchTerm cuisineFilter priceFilter sortBy) <->
             In r C /\ kept searchTerm cuisineFilter priceFilter r = true) /\
  (length (pipeline C searchTerm cuisineFilter priceFilter sortBy) <= length C)%nat.
Proof.
  assert (Permutation (pipeline C searchTerm cuisineFilter priceFilter sortBy)
            (List.filter (kept searchTerm cuisineFilter priceFilter) C)) as Hperm
    by apply Array_sort_perm.
  split; [exact Hperm |]. split.
  - intros r. rewrite <- List.filter_In. split; apply Permutation_in; [done |].
    by apply Permutation_sym.
  - rewrite (Permutation_length Hperm). apply List.filter_length_le.
Qed.

(** X2. With the sort key "rating" the pipeline yields the passing
    restaurants in an order in which ratings never increase. *)
Theorem sort_by_rating (C : Collection) (searchTerm cuisineFilter priceFilter : JsString) :
  Permutation (pipeline C searchTerm cuisineFilter priceFilter (js "rating"))
    (List.filter (kept searchTerm cuisineFilter priceFilter) C) /\
  StronglySorted (fun a b => rating a >= rating b)
    (pipeline C searchTerm cuisineFilter priceFilter (js "rating")).
Proof.
  split; [apply Array_sort_perm |].
  eapply (StronglySorted_weaken (fun _ => True));
    [| | apply (Array_sort_sorted _ (fun r => - rating r))].
  - by apply Forall_true.
  - cbn. intros a b _ _. lia.
  - intros a b. change (compareBy (js "rating") a b) with (rating b - rating a). lia.
Qed.

(** X3. A sort key that the [switch] has no case for reorders nothing:
    the pipeline yields the passing restaurants in the order of the
    collection. *)
Theorem unrecognised_sort_key_keeps_order (C : Collection)
    (searchTerm cuisineFilter priceFilter sortBy : JsString) :
  ~ In sortBy sort_keys ->
  pipeline C searchTerm cuisineFilter priceFilter sortBy =
  List.filter (kept searchTerm cuisineFilter priceFilter) C.
Proof.
  intros Hkey. apply Array_sort_indifferent. intros a b.
  unfold compareBy, str_eqb.
  repeat match goal with
  | |- context [bool_decide (sortBy = ?t)] =>
      destruct (bool_decide_reflect (sortBy = t)) as [Heq|_];
      [exfalso; apply Hkey; rewrite Heq; unfold sort_keys;
       repeat (first [left; reflexivity | right]) |]
  end.
  reflexivity.
Qed.

(** X4. The sort is stable for every sort key: the restaurants that the
    comparator does not tell apart (same timestamp, same rating, same
    number of price signs, or any two under an unrecognised key) come in
    the order they have in the collection. *)
Theorem equal_keys_keep_collection_order (C : Collection)
    (searchTerm cuisineFilter priceFilter sortBy : JsString) (v : Z) :
  (forall a b, compareBy sortBy a b = 0 <-> sort_key sortBy a = sort_key sortBy b) /\
  List.filter (fun r => sort_key sortBy r =? v)
    (pipeline C searchTerm cuisineFilter priceFilter sortBy) =
  List.filter (fun r => sort_key sortBy r =? v)
    (List.filter (kept searchTerm cuisineFilter priceFilter) C).
Proof.
  split.
  - intros a b. rewrite compareBy_sort_key. lia.
  - apply Array_sort_stable, compareBy_order.
Qed.

(** X5. Running the pipeline on what it has yielded, with the same
    filters and sort key, changes nothing. *)
Theorem pipeline_idempotent (C : Collection)
    (searchTerm cuisineFilter priceFilter sortBy : JsString) :
  pipeline (pipeline C searchTerm cuisineFilter priceFilter sortBy)
    searchTerm cuisineFilter priceFilter sortBy =
  pipeline C searchTerm cuisineFilter priceFilter sortBy.
Proof.
  unfold filteredAndSortedRestaurants at 1.
  rewrite filter_all_pass.
  - apply (Array_sort_fixed _ (sort_key sortBy)); [apply compareBy_order |].
    apply Array_sort_sorted, compareBy_order.
  - intros r Hr. eapply Permutation_in in Hr; [| apply Array_sort_perm].
    by apply List.filter_In in Hr as [_ Hr].
Qed.

(** X6. Every restaurant that the pipeline yields has exactly the
    cuisine of the cuisine filter, unless the filter is "All", and exactly
    the price range of the price filter, unless the filter is "all"; the
    comparison is that of [===], so that "all" as a cuisine or "All" as a
    price are no sentinels. *)
Theorem exact_filters (C : Collection)
    (searchTerm cuisineFilter priceFilter sortBy : JsString) :
  Forall (fun r => (cuisineFilter = js "All" \/ cuisine r = cuisineFilter) /\
                   (priceFilter = js "all" \/ priceRange r = priceFilter))
    (pipeline C searchTerm cuisineFilter priceFilter sortBy) /\
  (forall r, matchesCuisine (js "all") r = true <-> cuisine r = js "all") /\
  (forall r, matchesPrice (js "All") r = true <-> priceRange r = js "All").
Proof.
  split; [| split; intros r; unfold matchesCuisine, matchesPrice, str_eqb;
            rewrite orb_true_iff, !bool_decide_eq_true;
            (split; [intros [H|H]; [discriminate H | exact H] | by right])].
  apply List.Forall_forall. intros r Hr.
  eapply Permutation_in in Hr; [| apply Array_sort_perm].
  apply List.filter_In in Hr as [_ Hr].
  unfold keep, matchesCuisine, matchesPrice, str_eqb in Hr.
  apply andb_true_iff in Hr as [Hr Hp]. apply andb_true_iff in Hr as [_ Hc].
  apply orb_true_iff in Hc, Hp. rewrite !bool_decide_eq_true in Hc, Hp. tauto.
Qed.




(** X8. Search terms of ASCII text that differ in the case of letters
    only yield the same restaurants in the same order. *)
Theorem search_ignores_ascii_case (C : Collection)
    (term1 term2 cuisineFilter priceFilter sortBy : JsString) :
  is_ascii term1 -> is_ascii term2 ->
  map ascii_lower term1 = map ascii_lower term2 ->
  pipeline C term1 cuisineFilter priceFilter sortBy =
  pipeline C term2 cuisineFilter priceFilter sortBy.
Proof.
  intros H1 H2 Heq. unfold filteredAndSortedRestaurants, keep, matchesSearch.
  by rewrite (toLowerCase_ascii term1), (toLowerCase_ascii term2), Heq.
Qed.


End PipelineProperties.

(** ** The theorems at the sample data *)

Lemma refresh_all_sources_fail_witness :
  obtained Rejected = None /\
  obtained server_down = None /\
  truthy (stored storage_key (initial ∅)) = false /\
  exists w',
    exec (fetchRestaurants None parse_sample) [Rejected; server_down] (initial ∅)
      = (w', Returned tt) /\
    restaurants w' = restaurants (initial ∅) /\
    error w' = Some (js "Failed to load restaurants. Please try again later.").
Proof.
  split; [reflexivity |]. split; [reflexivity |]. split; [reflexivity |].
  apply (refresh_all_sources_fail None parse_sample (initial ∅) Rejected server_down);
    reflexivity.
Defined.

(** A world whose cache holds the text of a collection. *)
Definition cached_world : World :=
  store storage_key (js "[tofu]") (initial ∅).

Lemma refresh_recovers_cache_witness :
  obtained Rejected = None /\
  obtained server_down = None /\
  stored storage_key cached_world = Some (js "[tofu]") /\
  js "[tofu]" <> [] /\
  parse_sample (js "[tofu]") = Some [tofu_house] /\
  exists w',
    exec (fetchRestaurants None parse_sample) [Rejected; server_down] cached_world
      = (w', Returned tt) /\
    restaurants w' = [tofu_house] /\
    error w' = None.
Proof.
  assert (stored storage_key cached_world = Some (js "[tofu]")) as Hs
    by apply stored_store.
  repeat (split; [first [reflexivity | exact Hs | discriminate] |]).
  apply (refresh_recovers_cache None parse_sample cached_world Rejected server_down
           (js "[tofu]") [tofu_house]);
    first [reflexivity | exact Hs | discriminate].
Defined.

Lemma refresh_fallback_succeeds_witness :
  obtained Rejected = None /\
  obtained (Resolved {| ok := true; json_body := Some [tofu_house; green_bowl] |})
    = Some [tofu_house; green_bowl] /\
  exists w' e,
    exec (fetchRestaurants None parse_sample)
      [Rejected; Resolved {| ok := true; json_body := Some [tofu_house; green_bowl] |}]
      cached_world = (w', Returned tt) /\
    restaurants w' = [tofu_house; green_bowl] /\
    error w' = None /\
    history w' =
      [ EvFetch (GET (js "http://localhost:3000/api/restaurants"));
        EvConsole (js "Primary API error:") e;
        EvFetch (GET (API_URL None ++ js "/restaurants")) ] ++ history cached_world /\
    List.filter is_read (history w') = List.filter is_read (history cached_world).
Proof.
  split; [reflexivity |]. split; [reflexivity |].
  apply (refresh_fallback_succeeds None parse_sample cached_world Rejected
           (Resolved {| ok := true; json_body := Some [tofu_house; green_bowl] |})
           [tofu_house; green_bowl]);
    reflexivity.
Defined.

Lemma submit_rejected_witness :
  accepted server_down = false /\
  exists w' e,
    exec (handleAddRestaurant None parse_sample tofu_draft) [server_down] cached_world
      = (w', Returned tt) /\
    error w' = Some (js "Failed to add restaurant. Please try again.") /\
    restaurants w' = restaurants cached_world /\
    localStorage w' = localStorage cached_world /\
    history w' =
      EvConsole (js "Error adding restaurant:") e
      :: history (posted None tofu_draft cached_world).
Proof.
  split; [reflexivity |].
  apply (submit_rejected None parse_sample cached_world tofu_draft server_down []).
  reflexivity.
Defined.

(** The world that a refresh failing on all three sources leaves, when a
    submission has triggered it on a fresh page. *)
Definition failed_refresh : World :=
  (exec (fetchRestaurants None parse_sample) [Rejected; server_down]
     (posted None tofu_draft (initial ∅))).1.

Lemma submit_accepted_clears_error_witness :
  accepted created = true /\
  exec (fetchRestaurants None parse_sample) [Rejected; server_down]
    (posted None tofu_draft (initial ∅)) = (failed_refresh, Returned tt) /\
  error failed_refresh = Some (js "Failed to load restaurants. Please try again later.") /\
  (exists w',
     exec (handleAddRestaurant None parse_sample tofu_draft)
       [created; Rejected; server_down] (initial ∅) = (w', Returned tt) /\
     error w' = None /\
     restaurants w' = restaurants failed_refresh) /\
  (forall others w' a,
     exec (handleAddRestaurant None parse_sample tofu_draft) (created :: others)
       (initial ∅) = (w', Returned a) ->
     error w' <> Some (js "Failed to load restaurants. Please try again later.")).
Proof.
  assert (exec (fetchRestaurants None parse_sample) [Rejected; server_down]
            (posted None tofu_draft (initial ∅)) = (failed_refresh, Returned tt)) as Hrefresh
    by (vm_compute; reflexivity).
  split; [reflexivity |]. split; [exact Hrefresh |]. split; [vm_compute; reflexivity |].
  apply (submit_accepted_clears_error None parse_sample (initial ∅) failed_refresh
           tofu_draft created [Rejected; server_down] eq_refl Hrefresh).
Defined.

Lemma sort_by_price_witness :
  Forall has_tier_symbol [tofu_house; chez_vert; green_bowl] /\
  StronglySorted (fun a b => symbol_rank (priceRange a) <= symbol_rank (priceRange b))
    (filteredAndSortedRestaurants lower_ascii [tofu_house; chez_vert; green_bowl]
       [] (js "All") (js "all") (js "price-asc")) /\
  StronglySorted (fun a b => symbol_rank (priceRange a) >= symbol_rank (priceRange b))
    (filteredAndSortedRestaurants lower_ascii [tofu_house; chez_vert; green_bowl]
       [] (js "All") (js "all") (js "price-desc")) /\
  (forall sortBy,
     Forall (fun r => symbol_rank (priceRange r) = tier r /\ 1 <= tier r <= 4)
       (filteredAndSortedRestaurants lower_ascii [tofu_house; chez_vert; green_bowl]
          [] (js "All") (js "all") sortBy)).
Proof.
  assert (Forall has_tier_symbol [tofu_house; chez_vert; green_bowl]) as HC.
  { constructor; [right; left; reflexivity |].
    constructor; [do 3 right; left; reflexivity |].
    constructor; [left; reflexivity | constructor]. }
  split; [exact HC |].
  apply (sort_by_price lower_ascii [tofu_house; chez_vert; green_bowl]
           [] (js "All") (js "all") HC).
Defined.

Lemma search_is_substring_match_witness :
  (forall s, is_ascii s -> lower_ascii s = map ascii_lower s) /\
  (forall (r : Restaurant) (searchTerm : JsString),
     matchesSearch lower_ascii searchTerm r = true <->
     substring (lower_ascii searchTerm) (lower_ascii (name r)) \/
     substring (lower_ascii searchTerm) (lower_ascii (description r))) /\
  (forall r : Restaurant, matchesSearch lower_ascii [] r = true) /\
  (forall r : Restaurant,
     name r = js "Tofu House" -> matchesSearch lower_ascii (js "tofu") r = true).
Proof.
  split; [intros s _; reflexivity |].
  apply (search_is_substring_match lower_ascii).
  intros s _. reflexivity.
Defined.

(** A page opened over the snapshot of an earlier session, with the
    network down: the first refresh reads the text that the mount has
    written, and the earlier snapshot is not recovered. *)
Example earlier_snapshot_is_not_recovered :
  let earlier : gmap JsString JsString := {[ storage_key := js "[tofu]" ]} in
  let s := run None parse_sample stringify_sample
             [Respond 0 Rejected; Respond 0 server_down]
             (mount None parse_sample stringify_sample earlier) in
  parse_sample (js "[tofu]") = Some [tofu_house] /\
  restaurants (world s) = [] /\
  error (world s) = None /\
  pending s = [] /\
  List.filter is_read (history (world s)) = [EvGetItem storage_key (Some (js "[]"))].
Proof. vm_compute. repeat split. Qed.

(** ** The further properties at the sample data *)

(** A world whose cache holds a text that is not JSON. *)
Definition corrupt_world : World :=
  store storage_key (js "{oops") (initial ∅).

(** A world that holds a collection and its text in the cache. *)
Definition synced_world : World :=
  with_stale false
    (with_restaurants [tofu_house] (store storage_key (js "[tofu]") (initial ∅))).

Definition listing (data : Collection) : FetchResult :=
  Resolved {| ok := true; json_body := Some data |}.

Lemma refresh_primary_succeeds_witness :
  obtained (listing [green_bowl]) = Some [green_bowl] /\
  exists w',
    exec (fetchRestaurants None parse_sample) [listing [green_bowl]; Rejected] cached_world
      = (w', Returned tt) /\
    restaurants w' = [green_bowl] /\
    error w' = None /\
    isLoading w' = false /\
    localStorage w' = localStorage cached_world /\
    history w' = EvFetch (GET (API_URL None ++ js "/restaurants")) :: history cached_world.
Proof.
  split; [reflexivity |].
  apply (refresh_primary_succeeds None parse_sample cached_world (listing [green_bowl])
           [Rejected] [green_bowl]).
  reflexivity.
Defined.

Lemma refresh_corrupt_cache_throws_witness :
  obtained Rejected = None /\
  obtained server_down = None /\
  stored storage_key corrupt_world = Some (js "{oops") /\
  js "{oops" <> [] /\
  parse_sample (js "{oops") = None /\
  exists w',
    exec (fetchRestaurants None parse_sample) [Rejected; server_down] corrupt_world
      = (w', Threw SyntaxError) /\
    restaurants w' = restaurants corrupt_world /\
    error w' = Some (js "Failed to load restaurants. Please try again later.") /\
    isLoading w' = false.
Proof.
  assert (stored storage_key corrupt_world = Some (js "{oops")) as Hs
    by apply stored_store.
  repeat (split; [first [reflexivity | exact Hs | discriminate] |]).
  apply (refresh_corrupt_cache_throws None parse_sample corrupt_world Rejected
           server_down [] (js "{oops"));
    first [reflexivity | exact Hs | discriminate].
Defined.


Lemma submit_accepted_reports_failure_on_corrupt_cache_witness :
  accepted created = true /\
  obtained Rejected = None /\
  obtained server_down = None /\
  stored storage_key corrupt_world = Some (js "{oops") /\
  js "{oops" <> [] /\
  parse_sample (js "{oops") = None /\
  exists w',
    exec (handleAddRestaurant None parse_sample tofu_draft)
      [created; Rejected; server_down] corrupt_world = (w', Returned tt) /\
    error w' = Some (js "Failed to add restaurant. Please try again.") /\
    restaurants w' = restaurants corrupt_world /\
    history w' =
      EvConsole (js "Error adding restaurant:") SyntaxError
      :: history (offline_world None Rejected server_down
                    (posted None tofu_draft corrupt_world)).
Proof.
  assert (stored storage_key corrupt_world = Some (js "{oops")) as Hs
    by apply stored_store.
  repeat (split; [first [reflexivity | exact Hs | discriminate] |]).
  apply (submit_accepted_reports_failure_on_corrupt_cache None parse_sample corrupt_world
           tofu_draft created Rejected server_down [] (js "{oops"));
    first [reflexivity | exact Hs | discriminate].
Defined.

Lemma submit_accepted_adopts_server_collection_witness :
  accepted created = true /\
  obtained (listing [green_bowl]) = Some [green_bowl] /\
  exists w',
    exec (handleAddRestaurant None parse_sample tofu_draft)
      [created; listing [green_bowl]] cached_world = (w', Returned tt) /\
    restaurants w' = [green_bowl] /\
    error w' = None /\
    isLoading w' = false /\
    history w' =
      [ EvFetch (GET (API_URL None ++ js "/restaurants"));
        EvFetch (POST (API_URL None ++ js "/restaurants")
                   (complete tofu_draft (entropy cached_world) (clock cached_world))) ]
      ++ history cached_world.
Proof.
  split; [reflexivity |]. split; [reflexivity |].
  apply (submit_accepted_adopts_server_collection None parse_sample cached_world
           tofu_draft created (listing [green_bowl]) [] [green_bowl]);
    reflexivity.
Defined.

Lemma offline_refresh_is_silent_witness :
  obtained Rejected = None /\
  obtained server_down = None /\
  stored storage_key synced_world
    = Some (stringify_sample (restaurants synced_world)) /\
  stringify_sample (restaurants synced_world) <> [] /\
  parse_sample (stringify_sample (restaurants synced_world))
    = Some (restaurants synced_world) /\
  exists w',
    exec (fetchRestaurants None parse_sample) [Rejected; server_down] synced_world
      = (w', Returned tt) /\
    restaurants w' = restaurants synced_world /\
    error w' = None.
Proof.
  assert (stored storage_key synced_world
            = Some (stringify_sample (restaurants synced_world))) as Hs
    by apply (stored_store storage_key (js "[tofu]")).
  repeat (split; [first [reflexivity | exact Hs | discriminate] |]).
  apply (offline_refresh_is_silent None parse_sample stringify_sample synced_world
           Rejected server_down []);
    first [reflexivity | exact Hs | discriminate].
Defined.

Lemma first_load_offline_shows_no_error_witness :
  obtained Rejected = None /\
  obtained server_down = None /\
  stringify_sample [] <> [] /\
  parse_sample (stringify_sample []) = Some [] /\
  let s := run None parse_sample stringify_sample
             [Respond 0 Rejected; Respond 0 server_down]
             (mount None parse_sample stringify_sample
                {[ storage_key := js "[tofu]" ]}) in
  restaurants (world s) = [] /\
  error (world s) = None /\
  isLoading (world s) = false /\
  pending s = [].
Proof.
  repeat (split; [first [reflexivity | discriminate] |]).
  apply (first_load_offline_shows_no_error None parse_sample stringify_sample
           {[ storage_key := js "[tofu]" ]} Rejected server_down);
    first [reflexivity | discriminate].
Defined.

Lemma unset_api_url_repeats_the_request_witness :
  truthy (Some []) = false /\
  obtained server_down = None /\
  obtained (listing [green_bowl]) = Some [green_bowl] /\
  exists w' e,
    exec (fetchRestaurants (Some []) parse_sample) [server_down; listing [green_bowl]]
      cached_world = (w', Returned tt) /\
    restaurants w' = [green_bowl] /\
    history w' =
      [ EvFetch (GET (js "http://localhost:3000/api/restaurants"));
        EvConsole (js "Primary API error:") e;
        EvFetch (GET (js "http://localhost:3000/api/restaurants")) ]
      ++ history cached_world.
Proof.
  repeat (split; [reflexivity |]).
  apply (unset_api_url_repeats_the_request parse_sample (Some []) cached_world
           server_down (listing [green_bowl]) [green_bowl]);
    reflexivity.
Defined.

Lemma unrecognised_sort_key_keeps_order_witness :
  ~ In (js "name") sort_keys /\
  filteredAndSortedRestaurants lower_ascii [tofu_house; chez_vert; green_bowl]
    (js "t") (js "All") (js "all") (js "name") =
  List.filter (keep lower_ascii (js "t") (js "All") (js "all"))
    [tofu_house; chez_vert; green_bowl].
Proof.
  assert (~ In (js "name") sort_keys) as Hkey.
  { intros [H|[H|[H|[H|[H|[]]]]]]; discriminate H. }
  split; [exact Hkey |].
  apply (unrecognised_sort_key_keeps_order lower_ascii
           [tofu_house; chez_vert; green_bowl] (js "t") (js "All") (js "all")
           (js "name") Hkey).
Defined.

Lemma search_ignores_ascii_case_witness :
  (forall s, is_ascii s -> lower_ascii s = map ascii_lower s) /\
  is_ascii (js "TOFU") /\
  is_ascii (js "tofu") /\
  map ascii_lower (js "TOFU") = map ascii_lower (js "tofu") /\
  filteredAndSortedRestaurants lower_ascii [tofu_house; chez_vert; green_bowl]
    (js "TOFU") (js "All") (js "all") (js "newest") =
  filteredAndSortedRestaurants lower_ascii [tofu_house; chez_vert; green_bowl]
    (js "tofu") (js "All") (js "all") (js "newest").
Proof.
  assert (is_ascii (js "TOFU")) as H1 by (repeat constructor).
  assert (is_ascii (js "tofu")) as H2 by (repeat constructor).
  split; [intros s _; reflexivity |].
  split; [exact H1 |]. split; [exact H2 |]. split; [reflexivity |].
  apply (search_ignores_ascii_case lower_ascii (fun s _ => eq_refl)
           [tofu_house; chez_vert; green_bowl] (js "TOFU") (js "tofu")
           (js "All") (js "all") (js "newest") H1 H2 eq_refl).
Defined.


